(** * jerry_in_a_box.song_database: chord tokenizer, song catalog, progression matcher

    A shallow embedding of [src/jerry_in_a_box/song_database.py].

    Conventions of the embedding
    - Python [str] is [string]; a text is read as its UTF-8 bytes.  The
      tokenizer's regular expression only ever matches ASCII characters, so
      scanning bytes or code points yields the same tokens.
    - Python [int] accumulators are [Z]; the values produced by [range] and
      [len] are [nat].
    - [str.lower] is Unicode-aware in Python.  The matcher and the catalog are
      developed for an arbitrary [lower : string -> string]; the concrete
      evaluations instantiate it with [lower_ascii], which agrees with
      Python on ASCII text.
    - A [dict] is an association list in insertion order with unique keys:
      assigning to an existing key keeps the position of that key.
    - A list read [l[k]] is [nth k l EmptyString]; every read of the source is guarded
      so that [k < len(l)] (see [inner_loop] and [next_chords_from]).
    - The float [similarity] is the exact rational [match_length / len].  All
      similarities of one call share the denominator
      [len(current_progression)]; for fewer than 2^52 chords the correctly
      rounded quotients of distinct numerators are distinct and in the same
      order, so sorting the rationals is sorting the floats. *)

From Stdlib Require Import String Ascii.
From Stdlib Require Import List ZArith QArith Bool Arith Lia.
From Stdlib Require Import Permutation Sorted.
Import ListNotations.

Local Open Scope string_scope.
Local Open Scope list_scope.
Local Open Scope nat_scope.

(** ** Characters and case *)

Definition in_range (lo hi c : ascii) : bool :=
  ((N_of_ascii lo <=? N_of_ascii c) && (N_of_ascii c <=? N_of_ascii hi))%N.

Definition upper_char (c : ascii) : ascii :=
  if in_range "a" "z" c then ascii_of_N (N_of_ascii c - 32) else c.

Definition lower_char (c : ascii) : ascii :=
  if in_range "A" "Z" c then ascii_of_N (N_of_ascii c + 32) else c.

Fixpoint map_string (f : ascii -> ascii) (s : string) : string :=
  match s with
  | EmptyString => EmptyString
  | String c s' => String (f c) (map_string f s')
  end.

(** [str.upper] and [str.lower] on ASCII text. *)
Definition upper_ascii : string -> string := map_string upper_char.
Definition lower_ascii : string -> string := map_string lower_char.

(** ** Chord tokenizer: [parse_progression_from_text] *)

(** The character classes of [r'[A-Ga-g][#b]?|[/%|]']. *)
Definition is_root (c : ascii) : bool := in_range "A" "G" c || in_range "a" "g" c.
Definition is_accidental (c : ascii) : bool := Ascii.eqb c "#" || Ascii.eqb c "b".
Definition is_symbol (c : ascii) : bool :=
  Ascii.eqb c "/" || Ascii.eqb c "%" || Ascii.eqb c "|".

(** [re.findall(r'[A-Ga-g][#b]?|[/%|]', text)]: leftmost non-overlapping
    matches; the first alternative takes the accidental greedily. *)
Fixpoint findall (text : string) : list string :=
  match text with
  | EmptyString => []
  | String c rest =>
      if is_root c then
        match rest with
        | String a rest' =>
            if is_accidental a
            then String c (String a EmptyString) :: findall rest'
            else String c EmptyString :: findall rest
        | EmptyString => [String c EmptyString]
        end
      else if is_symbol c then String c EmptyString :: findall rest
      else findall rest
  end.

(** [progression.append(progression[-1])] under [if progression:]. *)
Definition repeat_last (progression : list string) : list string :=
  match progression with
  | [] => progression
  | _ :: _ => progression ++ [last progression EmptyString]
  end.

(** One iteration of the [while i < len(tokens)] loop; every branch ends in
    [i += 1], so the loop visits the tokens in order. *)
Definition parse_step (progression : list string) (token : string) : list string :=
  if (token =? "|")%string then progression
  else if (token =? "%")%string then repeat_last progression
  else if (token =? "/")%string then repeat_last progression
  else progression ++ [upper_ascii token].

Definition parse_tokens (tokens : list string) (progression : list string) : list string :=
  fold_left parse_step tokens progression.

Definition parse_progression_from_text (text : string) : list string :=
  parse_tokens (findall text) [].

(** ** Python values, the [Song] dataclass and the catalog dictionary *)

(** The values [json.load] can produce (numbers kept as integers; no claim
    depends on a number). *)
#[warnings="-register-all"]
Inductive value : Type :=
| VNone
| VBool (b : bool)
| VNum (n : Z)
| VStr (s : string)
| VList (l : list value)
| VDict (d : list (string * value)).

Record Song : Type := mkSong {
  title : string;
  artist : string;
  progression : list string;
  all_chords : value;
  source : string;
  sections : value
}.

Definition default_source : string := "Jerry Garcia Song Book".

(** The generated [__init__] followed by [__post_init__]: the arguments in
    field order, [None] replaced by a fresh empty container. *)
Definition Song_init (title artist : string) (progression : list string)
    (all_chords : value) (source : string) (sections : value) : Song :=
  mkSong title artist progression
    (match all_chords with VNone => VList [] | v => v end)
    source
    (match sections with VNone => VDict [] | v => v end).

Definition dict (V : Type) : Type := list (string * V).

Fixpoint dict_get {V} (k : string) (d : dict V) : option V :=
  match d with
  | [] => None
  | (k', v) :: d' => if (k' =? k)%string then Some v else dict_get k d'
  end.

(** [d[k] = v]: replace in place when the key is present, else append. *)
Fixpoint dict_set {V} (k : string) (v : V) (d : dict V) : dict V :=
  match d with
  | [] => [(k, v)]
  | (k', v') :: d' => if (k' =? k)%string then (k', v) :: d' else (k', v') :: dict_set k v d'
  end.

Definition values {V} (d : dict V) : list V := map snd d.
Definition keys {V} (d : dict V) : list string := map fst d.

(** ** Storage *)

(** What [open] and [json.load] make of 'jerry_in_a_box/data/songs.json':
    the file is absent, its text is not JSON, or it decodes to a value. *)
Inductive storage : Type :=
| NoFile
| Undecodable
| Decoded (v : value).

Inductive exn : Type :=
| FileNotFoundError
| JSONDecodeError
| TypeError
| AttributeError.

(** Result of a statement that may raise.  [Untyped] marks a record that
    Python accepts although a field holds a value outside its annotated type
    ([artist], [progression] or [source]); the typed [Song] has no such
    inhabitant and the model stops there. *)
Inductive outcome (A : Type) : Type :=
| Return (a : A)
| Raise (e : exn)
| Untyped.
Arguments Return {A} a.
Arguments Raise {A} e.
Arguments Untyped {A}.

Definition bind {A B} (m : outcome A) (k : A -> outcome B) : outcome B :=
  match m with
  | Return a => k a
  | Raise e => Raise e
  | Untyped => Untyped
  end.

Notation "x <- m ;; k" := (bind m (fun x => k))
  (at level 61, m at next level, right associativity).

Definition as_str (v : value) : outcome string :=
  match v with VStr s => Return s | _ => Untyped end.

Fixpoint as_str_list_items (l : list value) : outcome (list string) :=
  match l with
  | [] => Return []
  | VStr s :: l' => r <- as_str_list_items l' ;; Return (s :: r)
  | _ :: _ => Untyped
  end.

Definition as_str_list (v : value) : outcome (list string) :=
  match v with VList l => as_str_list_items l | _ => Untyped end.

Definition field_names : list string :=
  ["title"; "artist"; "progression"; "all_chords"; "source"; "sections"].

Definition has_key {V} (k : string) (d : dict V) : bool :=
  match dict_get k d with Some _ => true | None => false end.

(** [Song] called with the keywords of [song_data] accepts a mapping whose
    keys are field names and include the three fields without default;
    anything else is a [TypeError]. *)
Definition accepts_kwargs (song_data : value) : option (dict value) :=
  match song_data with
  | VDict d =>
      if forallb (fun kv => existsb (String.eqb (fst kv)) field_names) d
         && has_key "title" d && has_key "artist" d && has_key "progression" d
      then Some d else None
  | _ => None
  end.

Definition get_default (k : string) (d : dict value) (dflt : value) : value :=
  match dict_get k d with Some v => v | None => dflt end.

Fixpoint for_each {A S} (body : S -> A -> outcome S) (items : list A) (s : S) : outcome S :=
  match items with
  | [] => Return s
  | x :: items' => s' <- body s x ;; for_each body items' s'
  end.

Fixpoint chars (s : string) : list value :=
  match s with
  | EmptyString => []
  | String c s' => VStr (String c EmptyString) :: chars s'
  end.

(** What [for song_data in songs_data] iterates over: the items of a list,
    the keys of a dict, the characters of a string; other values are not
    iterable. *)
Definition iterate (songs_data : value) : outcome (list value) :=
  match songs_data with
  | VList l => Return l
  | VDict d => Return (map (fun kv => VStr (fst kv)) d)
  | VStr s => Return (chars s)
  | _ => Raise TypeError
  end.

(** [song.progression], [song.title], ... as [_save_songs] writes them. *)
Definition song_record (song : Song) : value :=
  VDict [("title", VStr (title song));
         ("artist", VStr (artist song));
         ("progression", VList (map VStr (progression song)));
         ("source", VStr (source song))].

(** [_save_songs]: the file afterwards decodes to the list of records, in
    the order of [self.songs.values()]. *)
Definition _save_songs (songs : dict Song) : storage :=
  Decoded (VList (map song_record (values songs))).

Definition sample_songs : list (string * string * list string) :=
  [("Ripple", "Grateful Dead",
    ["G"; "C"; "G"; "D"; "G"; "C"; "G"; "D"; "C"; "G"; "D"; "G"]);
   ("Friend of the Devil", "Grateful Dead",
    ["Am"; "C"; "G"; "D"; "Am"; "C"; "G"; "D"; "F"; "C"; "G"; "D"]);
   ("Scarlet Begonias", "Grateful Dead",
    ["G"; "C"; "G"; "D"; "C"; "G"; "D"; "G"])].

(** ** Ranking helpers *)

(** [results[:top_n]]: a negative bound counts from the end. *)
Definition slice_to {A} (l : list A) (top_n : Z) : list A :=
  if (top_n <? 0)%Z
  then firstn (Z.to_nat (Z.of_nat (length l) + top_n)) l
  else firstn (Z.to_nat top_n) l.

Section StableSort.
Context {A : Type} (key : A -> Q).

(** [x] was in front of every element of [l] before sorting: it passes
    only the elements whose key is strictly greater. *)
Fixpoint insert_desc (x : A) (l : list A) : list A :=
  match l with
  | [] => [x]
  | y :: l' =>
      if Qle_bool (key y) (key x) then x :: y :: l' else y :: insert_desc x l'
  end.

(** [list.sort(key=key, reverse=True)]: a stable sort, highest key first. *)
Definition sort_desc (l : list A) : list A := fold_right insert_desc [] l.

(** [x] has key [q]; used to compare the order of equal-key elements
    before and after sorting. *)
Definition key_is (q : Q) (x : A) : bool := Qeq_bool (key x) q.

(** [x] may stand in front of [y] in a list sorted highest key first. *)
Definition desc (x y : A) : Prop := (key y <= key x)%Q.
End StableSort.

Definition entry : Type := Song * Q * list string.
Definition entry_song (e : entry) : Song := fst (fst e).
Definition entry_similarity (e : entry) : Q := snd (fst e).
Definition entry_next_chords (e : entry) : list string := snd e.

(** [min(1.0, best_match_length / len(current_progression))]: Python's [min]
    returns its first argument unless the second is strictly smaller. *)
Definition similarity_of (best_match_length : Z) (n : nat) : Q :=
  let r := (inject_Z best_match_length / inject_Z (Z.of_nat n))%Q in
  if Qle_bool 1 r then 1%Q else r.

(** The [for i in range(5)] loop filling [next_chords]. *)
Definition next_chords_from (song_progression : list string) (next_chord_index : Z)
    : list string :=
  map (fun i => nth (Z.to_nat ((next_chord_index + Z.of_nat i)
                               mod Z.of_nat (length song_progression)))
                    song_progression EmptyString)
      (seq 0 5).

Section SongDatabase.
Variable lower : string -> string.

(** *** Catalog *)

(** One iteration of [for song_data in songs_data]: the right-hand side of
    the assignment, [Song] called with the keywords of [song_data], is
    evaluated first, then the key [song_data['title'].lower()]. *)
Definition load_record (songs : dict Song) (song_data : value) : outcome (dict Song) :=
  match accepts_kwargs song_data with
  | None => Raise TypeError
  | Some d =>
      match get_default "title" d VNone with
      | VStr t =>
          a <- as_str (get_default "artist" d VNone) ;;
          p <- as_str_list (get_default "progression" d VNone) ;;
          s <- as_str (get_default "source" d (VStr default_source)) ;;
          Return (dict_set (lower t)
                    (Song_init t a p (get_default "all_chords" d VNone) s
                               (get_default "sections" d VNone))
                    songs)
      | _ => Raise AttributeError
      end
  end.

(** The body of the [try] in [_load_songs]. *)
Definition load_body (songs : dict Song) (file : storage) : outcome (dict Song) :=
  match file with
  | NoFile => Raise FileNotFoundError
  | Undecodable => Raise JSONDecodeError
  | Decoded songs_data =>
      items <- iterate songs_data ;; for_each load_record items songs
  end.

Definition _initialize_sample_songs (songs : dict Song) : dict Song * storage :=
  let songs' :=
    fold_left
      (fun acc song_data =>
         let '(t, a, p) := song_data in
         dict_set (lower t) (Song_init t a p VNone default_source VNone) acc)
      sample_songs songs in
  (songs', _save_songs songs').

(** [_load_songs]: only [FileNotFoundError] is handled. *)
Definition _load_songs (songs : dict Song) (file : storage)
    : outcome (dict Song * storage) :=
  match load_body songs file with
  | Return songs' => Return (songs', file)
  | Raise FileNotFoundError => Return (_initialize_sample_songs songs)
  | Raise e => Raise e
  | Untyped => Untyped
  end.

(** [SongDatabase()]: an empty dictionary, then [_load_songs]. *)
Definition SongDatabase_init (file : storage) : outcome (dict Song * storage) :=
  _load_songs [] file.

(** [add_song]: the fourth positional argument of [Song] is [all_chords]. *)
Definition add_song (songs : dict Song) (title artist : string)
    (progression : list string) (source : string) : dict Song * storage :=
  let songs' :=
    dict_set (lower title)
      (Song_init title artist progression (VStr source) default_source VNone)
      songs in
  (songs', _save_songs songs').

(** *** Progression matcher *)

Definition chord_eq (a b : string) : bool := (lower a =? lower b)%string.

(** The inner [for j in range(len(pattern))] loop of [_find_best_match],
    [js] being the values of [j] still to visit. *)
Fixpoint inner_loop (extended_progression pattern : list string) (i : nat)
    (js : list nat) (match_length : Z) : Z :=
  match js with
  | [] => match_length
  | j :: js' =>
      if length extended_progression <=? i + j then match_length
      else if chord_eq (nth (i + j) extended_progression EmptyString)
                       (nth (j mod length pattern) pattern EmptyString)
      then inner_loop extended_progression pattern i js' (match_length + 1)
      else match_length
  end.

(** The run counted at start offset [i]. *)
Definition match_run (pattern progression : list string) (i : nat) : Z :=
  inner_loop (progression ++ progression) pattern i (seq 0 (length pattern)) 0.

(** One iteration of the outer loop on the state
    [(best_match_length, best_match_index)]. *)
Definition outer_step (pattern progression : list string) (best : Z * Z) (i : nat)
    : Z * Z :=
  let match_length := match_run pattern progression i in
  if (match_length >? fst best)%Z then (match_length, Z.of_nat i) else best.

Definition _find_best_match (pattern progression : list string) : Z * Z :=
  let best :=
    fold_left (outer_step pattern progression) (seq 0 (length progression))
              (0%Z, (-1)%Z) in
  (snd best, fst best).

(** The spec's reading of the run at offset [i], for comparison with
    [match_run]: [j = 0, 1, 2, ...] against [pattern[j mod len(pattern)]],
    ended only by a mismatch or by the end of the doubled progression
    ([window] is what is left of it). *)
Fixpoint greedy_unbounded (window pattern : list string) (j : nat) : Z :=
  match window with
  | [] => 0
  | c :: window' =>
      if chord_eq c (nth (j mod length pattern) pattern EmptyString)
      then (1 + greedy_unbounded window' pattern (S j))%Z
      else 0%Z
  end.

Definition spec_run (pattern progression : list string) (i : nat) : Z :=
  greedy_unbounded (skipn i (progression ++ progression)) pattern 0.

(** [i] is the lowest offset whose run is the longest of all offsets. *)
Definition lowest_longest (pattern progression : list string) (i : nat) : Prop :=
  i < length progression
  /\ (forall k, k < length progression ->
                (match_run pattern progression k <= match_run pattern progression i)%Z)
  /\ (forall k, k < i ->
                (match_run pattern progression k < match_run pattern progression i)%Z).

(** No chord of the progression matches the first chord of the pattern. *)
Definition no_first_match (pattern progression : list string) : Prop :=
  forall i, i < length progression ->
    chord_eq (nth i progression EmptyString) (nth 0 pattern EmptyString) = false.

(** The body of the loop over [self.songs.values()]. *)
Definition score_song (current_progression : list string) (results : list entry)
    (song : Song) : list entry :=
  match progression song with
  | [] => results
  | _ :: _ =>
      let '(best_match_index, best_match_length) :=
        _find_best_match current_progression (progression song) in
      if (best_match_length >? 0)%Z then
        let similarity := similarity_of best_match_length (length current_progression) in
        let next_chord_index :=
          ((best_match_index + best_match_length)
             mod Z.of_nat (length (progression song)))%Z in
        results ++ [(song, similarity, next_chords_from (progression song) next_chord_index)]
      else results
  end.

(** The tuple appended for a song that takes part in the ranking. *)
Definition entry_of (current_progression : list string) (song : Song) : entry :=
  let '(best_match_index, best_match_length) :=
    _find_best_match current_progression (progression song) in
  (song,
   similarity_of best_match_length (length current_progression),
   next_chords_from (progression song)
     ((best_match_index + best_match_length)
        mod Z.of_nat (length (progression song)))%Z).

(** A song takes part when its progression is non-empty and the best run
    is positive. *)
Definition included (current_progression : list string) (song : Song) : bool :=
  match progression song with
  | [] => false
  | _ :: _ =>
      (snd (_find_best_match current_progression (progression song)) >? 0)%Z
  end.

(** [results] before the sort. *)
Definition scored (current_progression : list string) (songs : dict Song) : list entry :=
  fold_left (score_song current_progression) (values songs) [].

Definition find_similar_progressions (songs : dict Song)
    (current_progression : list string) (top_n : Z) : list entry :=
  match current_progression with
  | [] => []
  | _ :: _ =>
      slice_to (sort_desc entry_similarity (scored current_progression songs)) top_n
  end.

End SongDatabase.

(** ** Further operations and the predicates used to describe them *)

(** [q in s] on strings: does [s] start with [q], and does [q] occur in [s]
    as a contiguous substring. *)
Fixpoint starts_with (q s : string) : bool :=
  match q, s with
  | EmptyString, _ => true
  | String a q', String b s' => Ascii.eqb a b && starts_with q' s'
  | String _ _, EmptyString => false
  end.

Fixpoint contains (q s : string) : bool :=
  starts_with q s
  || match s with
     | EmptyString => false
     | String _ s' => contains q s'
     end.

(** [s] is [a ++ q ++ b] for some [a] and [b]. *)
Definition substring_of (q s : string) : Prop :=
  exists a b : string, s = (a ++ q ++ b)%string.

(** A token as [parse_progression_from_text] emits it: an upper-case root
    [A]-[G], alone or followed by [#] or by [B] (the flat sign [b] after
    [upper]). *)
Definition chord_token (t : string) : bool :=
  match t with
  | String c EmptyString => in_range "A" "G" c
  | String c (String a EmptyString) =>
      in_range "A" "G" c && (Ascii.eqb a "#" || Ascii.eqb a "B")
  | _ => false
  end.

(** The first character of [post], if any, is not [#] or [b]. *)
Definition no_leading_accidental (post : string) : bool :=
  match post with
  | EmptyString => true
  | String a _ => negb (is_accidental a)
  end.

Fixpoint string_forallb (f : ascii -> bool) (s : string) : bool :=
  match s with
  | EmptyString => true
  | String c s' => f c && string_forallb f s'
  end.

(** What a record read back from storage keeps of a song: [all_chords] and
    [sections] are not written by [_save_songs]. *)
Definition reloaded (song : Song) : Song :=
  mkSong (title song) (artist song) (progression song) (VList []) (source song) (VDict []).

Section SongDatabaseMore.
Variable lower : string -> string.

(** [search_songs]: the songs whose lower-cased title or artist contains the
    lower-cased query, in the order of [self.songs.values()]. *)
Definition search_songs (songs : dict Song) (query : string) : list Song :=
  let query := lower query in
  filter (fun song => contains query (lower (title song))
                      || contains query (lower (artist song)))
         (values songs).

(** Every key is the lower-cased title of its song, and no key occurs
    twice. *)
Definition well_keyed (songs : dict Song) : Prop :=
  NoDup (keys songs)
  /\ Forall (fun kv => fst kv = lower (title (snd kv))) songs.

(** The pattern lies in the doubled progression from offset [i] on. *)
Definition occurs_at (pattern progression : list string) (i : nat) : Prop :=
  i + length pattern <= 2 * length progression
  /\ forall j, j < length pattern ->
       chord_eq lower (nth (i + j) (progression ++ progression) EmptyString)
                      (nth j pattern EmptyString) = true.

(** A song can be ranked: it has chords and one of them matches the first
    chord of the current progression. *)
Definition matches_first (current_progression : list string) (song : Song) : Prop :=
  progression song <> []
  /\ exists i, i < length (progression song)
          /\ chord_eq lower (nth i (progression song) EmptyString)
                            (nth 0 current_progression EmptyString) = true.

End SongDatabaseMore.

(** ** Catalogs used in the evaluations *)

(** The catalog after [_initialize_sample_songs] on ASCII-lowered keys. *)
Definition seed_catalog : dict Song :=
  [("ripple",
    mkSong "Ripple" "Grateful Dead"
      ["G"; "C"; "G"; "D"; "G"; "C"; "G"; "D"; "C"; "G"; "D"; "G"]
      (VList []) default_source (VDict []));
   ("friend of the devil",
    mkSong "Friend of the Devil" "Grateful Dead"
      ["Am"; "C"; "G"; "D"; "Am"; "C"; "G"; "D"; "F"; "C"; "G"; "D"]
      (VList []) default_source (VDict []));
   ("scarlet begonias",
    mkSong "Scarlet Begonias" "Grateful Dead"
      ["G"; "C"; "G"; "D"; "C"; "G"; "D"; "G"]
      (VList []) default_source (VDict []))].

Definition circular_song : Song :=
  mkSong "Circular" "Test" ["G"; "C"; "G"; "D"] (VList []) default_source (VDict []).

Definition song_of (t : string) (p : list string) : Song :=
  mkSong t "Grateful Dead" p (VList []) default_source (VDict []).

Definition ranking_catalog : dict Song :=
  [("partial", song_of "Partial" ["G"; "D"]);
   ("songa", song_of "SongA" ["G"; "C"; "D"]);
   ("songb", song_of "SongB" ["C"; "G"; "C"]);
   ("silent", song_of "Silent" ["F"])].

(** * Tokenizer *)

Lemma findall_app_symbol (m : ascii) (post : string) :
  is_symbol m = true -> is_root m = false -> is_accidental m = false ->
  forall n pre, String.length pre <= n ->
    findall (pre ++ String m post)%string
    = findall pre ++ String m EmptyString :: findall post.
Proof.
  intros Hs Hr Ha n.
  induction n as [|n IH]; intros pre Hlen.
  - destruct pre; [|simpl in Hlen; lia].
    simpl. now rewrite Hr, Hs.
  - destruct pre as [|c r].
    + simpl. now rewrite Hr, Hs.
    + simpl in Hlen.
      cbn [append findall].
      destruct (is_root c).
      * destruct r as [|a r'].
        -- cbn [append findall]. now rewrite Ha, Hr, Hs.
        -- cbn [append]. simpl in Hlen.
           destruct (is_accidental a).
           ++ rewrite IH by lia. reflexivity.
           ++ change (String a (r' ++ String m post)%string)
                with ((String a r') ++ String m post)%string.
              rewrite IH by (simpl; lia). reflexivity.
      * destruct (is_symbol c); rewrite IH by lia; reflexivity.
Qed.

Lemma parse_tokens_app (ts1 ts2 : list string) (acc : list string) :
  parse_tokens (ts1 ++ ts2) acc = parse_tokens ts2 (parse_tokens ts1 acc).
Proof. unfold parse_tokens. apply fold_left_app. Qed.

Lemma repeat_last_snoc (out : list string) (x : string) :
  repeat_last (out ++ [x]) = out ++ [x; x].
Proof.
  unfold repeat_last.
  destruct (out ++ [x]) eqn:E.
  - now destruct out.
  - rewrite <- E, last_last, <- app_assoc. reflexivity.
Qed.

(** C9. In [parse], a repeat marker [%] or [/] appends a duplicate of the
    last appended token when the output so far is non-empty and does nothing
    when it is empty: whatever text precedes and follows the marker, the
    output built from the preceding text goes through [repeat_last] before
    the rest is processed.  In particular [parse "G % D" = [G; G; D]] and
    [parse "% G" = [G]]. *)
Theorem repeat_marker_duplicates_last :
  (forall pre post : string,
      parse_progression_from_text (pre ++ String "%" post)%string
      = parse_tokens (findall post) (repeat_last (parse_progression_from_text pre)))
  /\ (forall pre post : string,
      parse_progression_from_text (pre ++ String "/" post)%string
      = parse_tokens (findall post) (repeat_last (parse_progression_from_text pre)))
  /\ repeat_last [] = []
  /\ (forall out x, repeat_last (out ++ [x]) = out ++ [x; x])
  /\ parse_progression_from_text "G % D" = ["G"; "G"; "D"]
  /\ parse_progression_from_text "% G" = ["G"].
Proof.
  repeat split.
  - intros pre post. unfold parse_progression_from_text.
    rewrite (findall_app_symbol "%" post eq_refl eq_refl eq_refl (String.length pre) pre (le_n _)).
    rewrite parse_tokens_app. reflexivity.
  - intros pre post. unfold parse_progression_from_text.
    rewrite (findall_app_symbol "/" post eq_refl eq_refl eq_refl (String.length pre) pre (le_n _)).
    rewrite parse_tokens_app. reflexivity.
  - apply repeat_last_snoc.
Qed.

(** * Progression matcher *)

Section MatcherFacts.
Variable lower : string -> string.


Lemma inner_loop_bounds (ext pattern : list string) (i : nat) :
  forall js acc,
    (acc <= inner_loop lower ext pattern i js acc <= acc + Z.of_nat (length js))%Z.
Proof.
  induction js as [|j js IH]; intros acc; cbn [inner_loop length].
  - lia.
  - destruct (length ext <=? i + j); [lia|].
    destruct (chord_eq lower _ _); [|lia].
    specialize (IH (acc + 1)%Z). lia.
Qed.

Lemma match_run_bounds (pattern progression : list string) (i : nat) :
  (0 <= match_run lower pattern progression i <= Z.of_nat (length pattern))%Z.
Proof.
  unfold match_run.
  pose proof (inner_loop_bounds (progression ++ progression) pattern i
                (seq 0 (length pattern)) 0) as H.
  rewrite length_seq in H. lia.
Qed.

Lemma skipn_nth_cons (l : list string) (k : nat) :
  k < length l -> skipn k l = nth k l EmptyString :: skipn (S k) l.
Proof.
  revert k. induction l as [|x l IH]; intros k Hk; simpl in Hk; [lia|].
  destruct k as [|k]; [reflexivity|].
  cbn [skipn nth]. rewrite IH by lia. reflexivity.
Qed.

Lemma greedy_unbounded_nonneg (pattern : list string) :
  forall window j, (0 <= greedy_unbounded lower window pattern j)%Z.
Proof.
  induction window as [|c w IH]; intros j; cbn [greedy_unbounded]; [lia|].
  destruct (chord_eq lower _ _); [|lia].
  specialize (IH (S j)). lia.
Qed.

(** The loop over [j .. j+k-1] counts what the unbounded reading counts
    from position [j], cut off after [k] steps. *)
Lemma inner_loop_greedy (ext pattern : list string) (i : nat) :
  forall k j acc,
    inner_loop lower ext pattern i (seq j k) acc
    = (acc + Z.min (Z.of_nat k)
                   (greedy_unbounded lower (skipn (i + j) ext) pattern j))%Z.
Proof.
  induction k as [|k IH]; intros j acc.
  - pose proof (greedy_unbounded_nonneg pattern (skipn (i + j) ext) j).
    cbn [seq inner_loop]. lia.
  - cbn [seq inner_loop].
    destruct (length ext <=? i + j) eqn:E.
    + apply Nat.leb_le in E.
      rewrite skipn_all2 by exact E. cbn [greedy_unbounded]. lia.
    + apply Nat.leb_gt in E.
      rewrite (skipn_nth_cons ext (i + j) E). cbn [greedy_unbounded].
      destruct (chord_eq lower _ _).
      * rewrite IH. replace (i + S j) with (S (i + j)) by lia.
        pose proof (greedy_unbounded_nonneg pattern (skipn (S (i + j)) ext) (S j)).
        lia.
      * lia.
Qed.

Lemma match_run_spec_run (pattern progression : list string) (i : nat) :
  match_run lower pattern progression i
  = Z.min (Z.of_nat (length pattern)) (spec_run lower pattern progression i).
Proof.
  unfold match_run, spec_run. rewrite inner_loop_greedy.
  rewrite Nat.add_0_r. lia.
Qed.

(** The run at a real offset is positive exactly when the chord there
    matches the first chord of the pattern. *)
Lemma match_run_first (pattern progression : list string) (i : nat) :
  pattern <> [] -> i < length progression ->
  if chord_eq lower (nth i progression EmptyString) (nth 0 pattern EmptyString)
  then (0 < match_run lower pattern progression i)%Z
  else match_run lower pattern progression i = 0%Z.
Proof.
  intros Hp Hi. unfold match_run.
  destruct pattern as [|x pattern']; [congruence|].
  cbn [length seq inner_loop].
  rewrite length_app, Nat.add_0_r.
  replace (length progression + length progression <=? i) with false
    by (symmetry; apply Nat.leb_gt; lia).
  rewrite app_nth1 by exact Hi.
  rewrite Nat.Div0.mod_0_l.
  cbn [nth].
  destruct (chord_eq lower _ _); [|reflexivity].
  pose proof (inner_loop_bounds (progression ++ progression) (x :: pattern') i
                (seq 1 (length pattern')) (0 + 1)).
  lia.
Qed.

(** Invariant of the outer loop over the offsets [a .. a+n-1]. *)
Lemma outer_loop_spec (pattern progression : list string) :
  forall n a bl0 bi0,
    let r := fold_left (outer_step lower pattern progression) (seq a n) (bl0, bi0) in
    (forall k, a <= k < a + n -> (match_run lower pattern progression k <= fst r)%Z)
    /\ ((r = (bl0, bi0)
         /\ forall k, a <= k < a + n -> (match_run lower pattern progression k <= bl0)%Z)
        \/ ((bl0 < fst r)%Z
            /\ exists i, a <= i < a + n
                    /\ snd r = Z.of_nat i
                    /\ match_run lower pattern progression i = fst r
                    /\ forall k, a <= k < i -> (match_run lower pattern progression k < fst r)%Z)).
Proof.
  induction n as [|n IH]; intros a bl0 bi0; cbn [seq fold_left].
  - cbn. split; [intros; lia|]. left. split; [reflexivity|intros; lia].
  - assert (outer_step lower pattern progression (bl0, bi0) a
            = if (match_run lower pattern progression a >? bl0)%Z
              then (match_run lower pattern progression a, Z.of_nat a) else (bl0, bi0)) as ->
      by reflexivity.
    destruct (match_run lower pattern progression a >? bl0)%Z eqn:E.
    + apply Z.gtb_lt in E.
      specialize (IH (S a) (match_run lower pattern progression a) (Z.of_nat a)).
      cbv zeta in IH |- *.
      destruct IH as [Hall [[Heq Hle] | [Hlt [i [Hi [Hs [Hr Hk]]]]]]].
      * rewrite Heq in *. cbn [fst snd] in *. split.
        -- intros k Hk. destruct (Nat.eq_dec k a) as [->|]; [lia|]. apply Hall. lia.
        -- right. split; [lia|]. exists a. repeat split; try lia.
      * split.
        -- intros k Hk'. destruct (Nat.eq_dec k a) as [->|]; [lia|]. apply Hall. lia.
        -- right. split; [lia|]. exists i. repeat split; try lia; try assumption.
           intros k Hk'. destruct (Nat.eq_dec k a) as [->|]; [lia|]. apply Hk. lia.
    + assert (match_run lower pattern progression a <= bl0)%Z as E'
        by (destruct (Z.gtb_spec (match_run lower pattern progression a) bl0); [discriminate|lia]).
      specialize (IH (S a) bl0 bi0).
      cbv zeta in IH |- *.
      destruct IH as [Hall [[Heq Hle] | [Hlt [i [Hi [Hs [Hr Hk]]]]]]].
      * rewrite Heq in *. cbn [fst snd] in *. split.
        -- intros k Hk. destruct (Nat.eq_dec k a) as [->|]; [lia|]. apply Hall. lia.
        -- left. split; [reflexivity|].
           intros k Hk. destruct (Nat.eq_dec k a) as [->|]; [lia|]. apply Hle. lia.
      * split.
        -- intros k Hk'. destruct (Nat.eq_dec k a) as [->|]; [lia|]. apply Hall. lia.
        -- right. split; [lia|]. exists i. repeat split; try lia; try assumption.
           intros k Hk'. destruct (Nat.eq_dec k a) as [->|]; [lia|]. apply Hk. lia.
Qed.

(** What [_find_best_match] returns: either the initial [(-1, 0)], when no
    offset has a positive run, or the lowest offset of the longest run. *)
Lemma best_match_cases (pattern progression : list string) :
  (forall k, k < length progression ->
             (match_run lower pattern progression k <= snd (_find_best_match lower pattern progression))%Z)
  /\ ((_find_best_match lower pattern progression = ((-1)%Z, 0%Z)
       /\ forall k, k < length progression -> match_run lower pattern progression k = 0%Z)
      \/ ((0 < snd (_find_best_match lower pattern progression))%Z
          /\ exists i, fst (_find_best_match lower pattern progression) = Z.of_nat i
                  /\ match_run lower pattern progression i = snd (_find_best_match lower pattern progression)
                  /\ lowest_longest lower pattern progression i)).
Proof.
  unfold _find_best_match. cbv zeta.
  pose proof (outer_loop_spec pattern progression (length progression) 0 0%Z (-1)%Z) as H.
  cbv zeta in H.
  destruct (fold_left _ _ _) as [bl bi].
  cbn [fst snd] in *.
  destruct H as [Hall H]. split.
  - intros k Hk. apply Hall. lia.
  - destruct H as [[Heq Hle] | [Hlt [i [Hi [Hs [Hr Hk]]]]]].
    + left. injection Heq as -> ->. split; [reflexivity|].
      intros k Hk. pose proof (match_run_bounds pattern progression k).
      specialize (Hle k). lia.
    + right. split; [exact Hlt|]. exists i. repeat split; try assumption; try lia.
      * intros k Hk'. rewrite Hr. apply Hall. lia.
      * intros k Hk'. rewrite Hr. apply Hk. lia.
Qed.


(** C2. The match length returned by [_find_best_match] lies between 0 and
    the length of the pattern (for every pattern and progression, the
    non-empty ones in particular). *)
Theorem match_length_within_pattern (pattern progression : list string) :
  (0 <= snd (_find_best_match lower pattern progression) <= Z.of_nat (length pattern))%Z.
Proof.
  destruct (best_match_cases pattern progression) as [_ [[-> _] | [Hpos [i [_ [Hr _]]]]]].
  - cbn. lia.
  - rewrite <- Hr. apply match_run_bounds.
Qed.

Lemma no_first_match_runs (pattern progression : list string) :
  pattern <> [] ->
  no_first_match lower pattern progression
  <-> forall k, k < length progression -> match_run lower pattern progression k = 0%Z.
Proof.
  intros Hp. split; intros H k Hk.
  - pose proof (match_run_first pattern progression k Hp Hk) as F.
    rewrite (H k Hk) in F. exact F.
  - pose proof (match_run_first pattern progression k Hp Hk) as F.
    destruct (chord_eq lower _ _); [|reflexivity].
    rewrite (H k Hk) in F. lia.
Qed.

(** C6. For a non-empty pattern and progression, [_find_best_match]
    returns the sentinel index [-1] with match length 0 exactly when no
    chord of the progression matches the first pattern chord
    case-insensitively; when some offset matches it, the match length is
    positive and the index is a valid offset. *)
Theorem sentinel_iff_no_first_match (pattern progression : list string) :
  pattern <> [] -> progression <> [] ->
  (no_first_match lower pattern progression
   <-> _find_best_match lower pattern progression = ((-1)%Z, 0%Z))
  /\ (no_first_match lower pattern progression
      <-> snd (_find_best_match lower pattern progression) = 0%Z)
  /\ ((exists i, i < length progression
            /\ chord_eq lower (nth i progression EmptyString)
                              (nth 0 pattern EmptyString) = true) ->
      (0 < snd (_find_best_match lower pattern progression))%Z
      /\ (0 <= fst (_find_best_match lower pattern progression)
          < Z.of_nat (length progression))%Z).
Proof.
  intros Hp _.
  pose proof (no_first_match_runs pattern progression Hp) as Hruns.
  destruct (best_match_cases pattern progression)
    as [Hall [[Heq Hzero] | [Hpos [i [Hi [Hr [Hlt _]]]]]]].
  - assert (no_first_match lower pattern progression) as Hn by (apply Hruns; exact Hzero).
    split; [|split].
    + split; intros _; assumption.
    + split; intros _; [rewrite Heq; reflexivity | assumption].
    + intros [i [Hi Hm]]. rewrite (Hn i Hi) in Hm. discriminate.
  - assert (~ no_first_match lower pattern progression) as Hno.
    { intros Hn. rewrite (proj1 Hruns Hn i Hlt) in Hr. lia. }
    split; [|split].
    + split; [intros Hn; contradiction|].
      intros Heq. rewrite Heq in Hpos. cbn in Hpos. lia.
    + split; [intros Hn; contradiction | intros Heq; lia].
    + intros _. split; [exact Hpos | lia].
Qed.

(** C7, as amended.  When the returned match length is positive, the
    returned index is the lowest offset whose run is the longest: every
    offset has a run no longer, and every lower offset a strictly shorter
    one, so a later offset with an equal run never replaces it. *)
Theorem lowest_offset_of_longest_run (pattern progression : list string) :
  (0 < snd (_find_best_match lower pattern progression))%Z ->
  exists i,
    fst (_find_best_match lower pattern progression) = Z.of_nat i
    /\ match_run lower pattern progression i = snd (_find_best_match lower pattern progression)
    /\ lowest_longest lower pattern progression i.
Proof.
  intros Hpos.
  destruct (best_match_cases pattern progression) as [_ [[Heq _] | [_ H]]].
  - rewrite Heq in Hpos. cbn in Hpos. lia.
  - exact H.
Qed.

(** C1, as amended.  The run counted at offset [i] is the unbounded
    greedy run of the spec cut off at the length of the pattern: [j] only
    ranges over [0 .. len(pattern)-1], so a run ends at the first
    mismatch, at the end of the doubled progression, or after one pass of
    the pattern.  The returned match length is the largest such run. *)
Theorem run_is_greedy_run_capped_by_pattern (pattern progression : list string) :
  (forall i,
      match_run lower pattern progression i
      = Z.min (Z.of_nat (length pattern)) (spec_run lower pattern progression i))
  /\ (forall i, i < length progression ->
                (match_run lower pattern progression i <= snd (_find_best_match lower pattern progression))%Z)
  /\ (snd (_find_best_match lower pattern progression) = 0%Z
      \/ exists i, i < length progression
                /\ match_run lower pattern progression i = snd (_find_best_match lower pattern progression)).
Proof.
  split; [apply match_run_spec_run|].
  destruct (best_match_cases pattern progression)
    as [Hall [[Heq _] | [_ [i [_ [Hr [Hlt _]]]]]]]; (split; [exact Hall|]).
  - left. rewrite Heq. reflexivity.
  - right. exists i. split; assumption.
Qed.

End MatcherFacts.

(** * Ranking *)

Section SortFacts.
Context {A : Type} (key : A -> Q).

Lemma insert_desc_perm (x : A) (l : list A) :
  Permutation (insert_desc key x l) (x :: l).
Proof.
  induction l as [|y l IH]; cbn [insert_desc]; [reflexivity|].
  destruct (Qle_bool (key y) (key x)); [reflexivity|].
  rewrite IH. apply perm_swap.
Qed.

Lemma sort_desc_perm (l : list A) : Permutation (sort_desc key l) l.
Proof.
  induction l as [|x l IH]; cbn [sort_desc fold_right]; [reflexivity|].
  fold (sort_desc key l). rewrite insert_desc_perm. now constructor.
Qed.

Lemma insert_desc_sorted (x : A) (l : list A) :
  StronglySorted (desc key) l -> StronglySorted (desc key) (insert_desc key x l).
Proof.
  induction l as [|y l IH]; intros Hs; cbn [insert_desc].
  - repeat constructor.
  - destruct (Qle_bool (key y) (key x)) eqn:E.
    + apply Qle_bool_iff in E.
      constructor; [exact Hs|].
      constructor; [exact E|].
      inversion Hs as [|? ? _ Hall]; subst.
      eapply Forall_impl; [|exact Hall].
      intros z Hz. unfold desc in *. eapply Qle_trans; eassumption.
    + assert (key x < key y)%Q as Hlt.
      { apply Qnot_le_lt. intros Hle. apply Qle_bool_iff in Hle. congruence. }
      inversion Hs as [|? ? Hs' Hall]; subst.
      constructor; [apply IH; exact Hs'|].
      apply Forall_forall. intros z Hz.
      apply (Permutation_in _ (insert_desc_perm x l)) in Hz.
      destruct Hz as [<-|Hz].
      * unfold desc. apply Qlt_le_weak. exact Hlt.
      * rewrite Forall_forall in Hall. apply Hall. exact Hz.
Qed.

Lemma sort_desc_sorted (l : list A) : StronglySorted (desc key) (sort_desc key l).
Proof.
  induction l as [|x l IH]; cbn [sort_desc fold_right]; [constructor|].
  apply insert_desc_sorted. exact IH.
Qed.

(** Inserting [x] does not move it past an element with the same key. *)
Lemma insert_desc_stable (q : Q) (x : A) (l : list A) :
  filter (key_is key q) (insert_desc key x l) = filter (key_is key q) (x :: l).
Proof.
  induction l as [|y l IH]; cbn [insert_desc]; [reflexivity|].
  destruct (Qle_bool (key y) (key x)) eqn:E; [reflexivity|].
  cbn [filter] in IH |- *. rewrite IH.
  destruct (key_is key q x) eqn:Ex, (key_is key q y) eqn:Ey; try reflexivity.
  exfalso. unfold key_is in Ex, Ey.
  apply Qeq_bool_iff in Ex. apply Qeq_bool_iff in Ey.
  assert (Qle_bool (key y) (key x) = true) as E'.
  { apply Qle_bool_iff. rewrite Ex, Ey. apply Qle_refl. }
  congruence.
Qed.

Lemma sort_desc_stable (q : Q) (l : list A) :
  filter (key_is key q) (sort_desc key l) = filter (key_is key q) l.
Proof.
  induction l as [|x l IH]; cbn [sort_desc fold_right]; [reflexivity|].
  fold (sort_desc key l). rewrite insert_desc_stable.
  cbn [filter]. rewrite IH. reflexivity.
Qed.

Lemma StronglySorted_firstn (n : nat) (l : list A) :
  StronglySorted (desc key) l -> StronglySorted (desc key) (firstn n l).
Proof.
  revert n. induction l as [|x l IH]; intros n Hs.
  - rewrite firstn_nil. constructor.
  - destruct n as [|n]; cbn [firstn]; [constructor|].
    inversion Hs as [|? ? Hs' Hall]; subst.
    constructor; [apply IH; exact Hs'|].
    apply Forall_forall. intros z Hz. rewrite Forall_forall in Hall.
    apply Hall. rewrite <- (firstn_skipn n l). apply in_or_app. now left.
Qed.

End SortFacts.

Lemma in_slice_to {A} (x : A) (l : list A) (top_n : Z) :
  In x (slice_to l top_n) -> In x l.
Proof.
  unfold slice_to. intros H.
  destruct (top_n <? 0)%Z;
    match type of H with In _ (firstn ?n _) => rewrite <- (firstn_skipn n l) end;
    apply in_or_app; now left.
Qed.

Lemma cyclic_index (s : Z) (k n : nat) :
  (0 <= s)%Z ->
  Z.to_nat ((s + Z.of_nat k) mod Z.of_nat n) = (Z.to_nat s + k) mod n.
Proof.
  intros Hs. apply Nat2Z.inj.
  rewrite Nat2Z.inj_mod, Nat2Z.inj_add, (Z2Nat.id s) by exact Hs.
  apply Z2Nat.id.
  destruct n as [|n].
  - cbn [Z.of_nat]. rewrite Z.mod_0_r. lia.
  - apply Z.mod_pos_bound. lia.
Qed.

Section RankingFacts.
Variable lower : string -> string.

Lemma score_song_cases (current : list string) (results : list entry) (song : Song) :
  score_song lower current results song
  = if included lower current song
    then results ++ [entry_of lower current song] else results.
Proof.
  unfold score_song, included, entry_of.
  destruct (progression song) as [|c g]; [reflexivity|].
  destruct (_find_best_match lower current (c :: g)) as [idx len]. cbn [snd].
  destruct (len >? 0)%Z; reflexivity.
Qed.

Lemma score_loop (current : list string) (songs : list Song) :
  forall results,
    fold_left (score_song lower current) songs results
    = results ++ map (entry_of lower current) (filter (included lower current) songs).
Proof.
  induction songs as [|song songs IH]; intros results; cbn [fold_left filter map].
  - now rewrite app_nil_r.
  - rewrite IH, score_song_cases.
    destruct (included lower current song); [|reflexivity].
    cbn [map]. now rewrite <- app_assoc.
Qed.

(** The unsorted results follow the catalog's iteration order. *)
Lemma scored_in_catalog_order (current : list string) (songs : dict Song) :
  scored lower current songs
  = map (entry_of lower current) (filter (included lower current) (values songs)).
Proof. unfold scored. now rewrite score_loop. Qed.

Lemma entry_song_of (current : list string) (song : Song) :
  entry_song (entry_of lower current song) = song.
Proof.
  unfold entry_of. now destruct (_find_best_match lower current (progression song)).
Qed.

(** C8. For a non-empty current progression and a non-negative [top_n],
    [find_similar_progressions] returns the first [top_n] entries of the
    results sorted by similarity, highest first; the sort keeps entries of
    equal similarity in the order in which the results were produced,
    which is the iteration order of the catalog. *)
Theorem ranking_sorted_stable_truncated
    (songs : dict Song) (current : list string) (top_n : Z) :
  current <> [] -> (0 <= top_n)%Z ->
  let results := scored lower current songs in
  let ranked := sort_desc entry_similarity results in
  let returned := find_similar_progressions lower songs current top_n in
  returned = firstn (Z.to_nat top_n) ranked
  /\ length returned <= Z.to_nat top_n
  /\ StronglySorted (desc entry_similarity) returned
  /\ StronglySorted (desc entry_similarity) ranked
  /\ Permutation ranked results
  /\ (forall q, filter (key_is entry_similarity q) ranked
                = filter (key_is entry_similarity q) results)
  /\ map entry_song results = filter (included lower current) (values songs).
Proof.
  intros Hc Hn. cbv zeta.
  assert (find_similar_progressions lower songs current top_n
          = firstn (Z.to_nat top_n)
              (sort_desc entry_similarity (scored lower current songs))) as ->.
  { unfold find_similar_progressions, slice_to.
    destruct current; [congruence|].
    destruct (Z.ltb_spec top_n 0); [lia|reflexivity]. }
  repeat split.
  - rewrite length_firstn. lia.
  - apply StronglySorted_firstn, sort_desc_sorted.
  - apply sort_desc_sorted.
  - apply sort_desc_perm.
  - intros q. apply sort_desc_stable.
  - rewrite scored_in_catalog_order, map_map.
    erewrite map_ext; [apply map_id|]. intros s. apply entry_song_of.
Qed.

(** C10. Every entry returned by [find_similar_progressions] carries
    exactly five next chords, read cyclically from the song's progression
    starting at [(start_index + match_length) mod len(progression)]: the
    [k]-th is the chord at position [(start + k) mod len(progression)],
    also when the progression has fewer than five chords. *)
Theorem next_chords_five_cyclic
    (songs : dict Song) (current : list string) (top_n : Z) (e : entry) :
  In e (find_similar_progressions lower songs current top_n) ->
  let song_progression := progression (entry_song e) in
  let best := _find_best_match lower current song_progression in
  let start :=
    Z.to_nat ((fst best + snd best) mod Z.of_nat (length song_progression)) in
  In (entry_song e) (values songs)
  /\ song_progression <> []
  /\ start < length song_progression
  /\ length (entry_next_chords e) = 5
  /\ forall k, k < 5 ->
       nth k (entry_next_chords e) EmptyString
       = nth ((start + k) mod length song_progression) song_progression EmptyString.
Proof.
  intros Hin. cbv zeta.
  assert (In e (scored lower current songs)) as Hs.
  { unfold find_similar_progressions in Hin.
    destruct current; [contradiction|].
    apply in_slice_to in Hin.
    eapply Permutation_in; [apply sort_desc_perm|exact Hin]. }
  rewrite scored_in_catalog_order in Hs.
  apply in_map_iff in Hs. destruct Hs as [song [<- Hsong]].
  apply filter_In in Hsong. destruct Hsong as [Hv Hinc].
  rewrite entry_song_of.
  unfold included in Hinc. unfold entry_of, entry_next_chords.
  destruct (progression song) as [|c g] eqn:Eg; [discriminate|].
  destruct (_find_best_match lower current (c :: g)) as [idx len].
  cbn [fst snd].
  assert (0 <= (idx + len) mod Z.of_nat (length (c :: g))
          < Z.of_nat (length (c :: g)))%Z as Hb
    by (apply Z.mod_pos_bound; cbn [length]; lia).
  split; [exact Hv|]. split; [discriminate|]. split; [lia|]. split.
  - unfold next_chords_from. now rewrite length_map, length_seq.
  - intros k Hk. unfold next_chords_from.
    rewrite <- cyclic_index by lia.
    do 5 (destruct k as [|k]; [reflexivity|]). lia.
Qed.

End RankingFacts.

(** * Catalog *)

Section CatalogFacts.
Variable lower : string -> string.

Lemma dict_get_set_same {V} (k : string) (v : V) (d : dict V) :
  dict_get k (dict_set k v d) = Some v.
Proof.
  induction d as [|[k' v'] d IH]; cbn [dict_set dict_get].
  - now rewrite String.eqb_refl.
  - destruct (k' =? k)%string eqn:E; cbn [dict_get]; rewrite E; [reflexivity|exact IH].
Qed.

Lemma dict_set_present {V} (k : string) (v : V) (d : dict V) :
  has_key k d = true ->
  length (dict_set k v d) = length d /\ keys (dict_set k v d) = keys d.
Proof.
  unfold has_key.
  induction d as [|[k' v'] d IH]; cbn [dict_set dict_get]; [discriminate|].
  destruct (k' =? k)%string eqn:E; intros H.
  - now split.
  - destruct (IH H) as [Hl Hk]. cbn [length keys map fst] in *.
    unfold keys in Hk. now rewrite Hl, Hk.
Qed.

(** What [add_song] stores under the lower-cased title: the title, artist
    and progression given, the [source] argument in [all_chords], and the
    default in [source]. *)
Lemma add_song_stored (songs : dict Song) (t a : string) (p : list string) (s : string) :
  dict_get (lower t) (fst (add_song lower songs t a p s))
  = Some (mkSong t a p (VStr s) default_source (VDict [])).
Proof. unfold add_song. cbn [fst]. apply dict_get_set_same. Qed.

(** Adding under a key that is present replaces the entry in place. *)
Lemma add_song_replaces (songs : dict Song) (t a : string) (p : list string) (s : string) :
  has_key (lower t) songs = true ->
  length (fst (add_song lower songs t a p s)) = length songs
  /\ keys (fst (add_song lower songs t a p s)) = keys songs.
Proof. intros H. unfold add_song. cbn [fst]. now apply dict_set_present. Qed.

(** The only exception [_load_songs] handles is [FileNotFoundError]. *)
Lemma load_songs_propagates (songs : dict Song) (file : storage) (e : exn) :
  load_body lower songs file = Raise e -> e <> FileNotFoundError ->
  _load_songs lower songs file = Raise e.
Proof.
  intros H He. unfold _load_songs. rewrite H. now destruct e.
Qed.

End CatalogFacts.

(** * Evaluations on ASCII chords and titles *)

(** C3 (the code departs from the claim).  Adding "RIPPLE" with source
    "Live at the Fillmore" to the seed catalog replaces the entry keyed
    "ripple" in place (three entries still, same keys, the new title, artist
    and progression), but the stored record's [source] is the default
    "Jerry Garcia Song Book": the argument went to [all_chords]. *)
Theorem add_song_drops_source :
  let songs' :=
    fst (add_song lower_ascii seed_catalog
           "RIPPLE" "Grateful Dead" ["G"; "C"] "Live at the Fillmore") in
  dict_get "ripple" songs'
  = Some (mkSong "RIPPLE" "Grateful Dead" ["G"; "C"]
            (VStr "Live at the Fillmore") "Jerry Garcia Song Book" (VDict []))
  /\ length songs' = length seed_catalog
  /\ keys songs' = keys seed_catalog
  /\ option_map source (dict_get "ripple" songs') = Some default_source
  /\ option_map all_chords (dict_get "ripple" songs') = Some (VStr "Live at the Fillmore")
  /\ default_source <> "Live at the Fillmore".
Proof.
  cbv zeta. repeat split. discriminate.
Qed.

(** C4, counterexample.  A file that is not JSON, and a file whose record
    lacks the title, make the constructor raise; no seed set is returned. *)
Lemma malformed_storage_raises :
  SongDatabase_init lower_ascii Undecodable = Raise JSONDecodeError
  /\ SongDatabase_init lower_ascii
       (Decoded (VList [VDict [("artist", VStr "Grateful Dead");
                               ("progression", VList [VStr "G"])]]))
     = Raise TypeError
  /\ ~ (forall file, file <> NoFile ->
          SongDatabase_init lower_ascii file
          = Return (seed_catalog, _save_songs seed_catalog)).
Proof.
  repeat split.
  intros H. specialize (H Undecodable ltac:(discriminate)). discriminate.
Qed.

(** C4, as amended.  When the storage file is missing, loading returns the
    built-in seed set and persists it; no error reaches the caller.  A file
    that is present but is not JSON raises [JSONDecodeError] to the caller,
    whatever the catalog held. *)
Theorem missing_storage_falls_back_to_seed :
  SongDatabase_init lower_ascii NoFile
  = Return (seed_catalog, _save_songs seed_catalog)
  /\ (forall lower songs,
         _load_songs lower songs NoFile
         = Return (_initialize_sample_songs lower songs))
  /\ (forall lower songs,
         snd (_initialize_sample_songs lower songs)
         = _save_songs (fst (_initialize_sample_songs lower songs)))
  /\ (forall lower songs,
         _load_songs lower songs Undecodable = Raise JSONDecodeError).
Proof. repeat split. Qed.

(** C5. For the progression G C G D and the pattern D G the best match
    starts at index 3 with length 2, the similarity is 1, and the next
    chords, read from index [(3 + 2) mod 4 = 1] with wraparound, are
    C G D G C. *)
Theorem circular_match_example :
  _find_best_match lower_ascii ["D"; "G"] ["G"; "C"; "G"; "D"] = (3%Z, 2%Z)
  /\ similarity_of 2 (length ["D"; "G"]) = 1%Q
  /\ ((3 + 2) mod 4 = 1)%Z
  /\ next_chords_from ["G"; "C"; "G"; "D"] 1 = ["C"; "G"; "D"; "G"; "C"]
  /\ find_similar_progressions lower_ascii [("circular", circular_song)] ["D"; "G"] 5
     = [(circular_song, 1%Q, ["C"; "G"; "D"; "G"; "C"])].
Proof. repeat split. Qed.

(** C1, counterexample.  With the pattern G against the progression G G,
    the unbounded reading runs for 4 chords from offset 0 (to the end of the
    doubled progression); the code stops after one pass of the pattern and
    returns a match length of 1. *)
Lemma run_stops_after_one_pass :
  spec_run lower_ascii ["G"] ["G"; "G"] 0 = 4%Z
  /\ match_run lower_ascii ["G"] ["G"; "G"] 0 = 1%Z
  /\ _find_best_match lower_ascii ["G"] ["G"; "G"] = (0%Z, 1%Z)
  /\ ~ (forall pattern progression i,
          pattern <> [] -> progression <> [] -> i < length progression ->
          match_run lower_ascii pattern progression i
          = spec_run lower_ascii pattern progression i).
Proof.
  repeat split.
  intros H.
  specialize (H ["G"] ["G"; "G"] 0 ltac:(discriminate) ltac:(discriminate) ltac:(cbn; lia)).
  discriminate.
Qed.

Lemma run_is_greedy_run_capped_by_pattern_witness :
  (match_run lower_ascii ["G"] ["G"; "G"] 1
   <= snd (_find_best_match lower_ascii ["G"] ["G"; "G"]))%Z.
Proof.
  apply (proj1 (proj2 (run_is_greedy_run_capped_by_pattern lower_ascii ["G"] ["G"; "G"])) 1).
  cbn. lia.
Defined.

Lemma sentinel_iff_no_first_match_witness :
  (0 < snd (_find_best_match lower_ascii ["D"; "G"] ["G"; "C"; "G"; "D"]))%Z
  /\ (0 <= fst (_find_best_match lower_ascii ["D"; "G"] ["G"; "C"; "G"; "D"])
      < Z.of_nat (length ["G"; "C"; "G"; "D"]))%Z.
Proof.
  apply (sentinel_iff_no_first_match lower_ascii ["D"; "G"] ["G"; "C"; "G"; "D"]).
  - discriminate.
  - discriminate.
  - exists 3. split; [cbn; lia | reflexivity].
Defined.

(** C7, counterexample.  With the pattern F against the progression G C no
    run is positive: the longest run is 0, the lowest offset having it is 0,
    and the index returned is the sentinel [-1], which is no offset. *)
Lemma sentinel_is_not_lowest_offset :
  _find_best_match lower_ascii ["F"] ["G"; "C"] = ((-1)%Z, 0%Z)
  /\ lowest_longest lower_ascii ["F"] ["G"; "C"] 0
  /\ ~ (exists i,
          fst (_find_best_match lower_ascii ["F"] ["G"; "C"]) = Z.of_nat i
          /\ lowest_longest lower_ascii ["F"] ["G"; "C"] i).
Proof.
  split; [reflexivity|]. split.
  - split; [cbn; lia|]. split.
    + intros k Hk. cbn in Hk.
      destruct k as [|[|k]]; [vm_compute; discriminate | vm_compute; discriminate | lia].
    + intros k Hk. lia.
  - intros [i [Hi _]].
    change (fst (_find_best_match lower_ascii ["F"] ["G"; "C"])) with (-1)%Z in Hi.
    lia.
Qed.

Lemma lowest_offset_of_longest_run_witness :
  exists i,
    fst (_find_best_match lower_ascii ["D"; "G"] ["G"; "C"; "G"; "D"]) = Z.of_nat i
    /\ match_run lower_ascii ["D"; "G"] ["G"; "C"; "G"; "D"] i
       = snd (_find_best_match lower_ascii ["D"; "G"] ["G"; "C"; "G"; "D"])
    /\ lowest_longest lower_ascii ["D"; "G"] ["G"; "C"; "G"; "D"] i.
Proof.
  apply (lowest_offset_of_longest_run lower_ascii ["D"; "G"] ["G"; "C"; "G"; "D"]).
  reflexivity.
Defined.

Lemma ranking_sorted_stable_truncated_witness :
  find_similar_progressions lower_ascii ranking_catalog ["G"; "C"] 2
  = firstn 2 (sort_desc entry_similarity (scored lower_ascii ["G"; "C"] ranking_catalog)).
Proof.
  apply (ranking_sorted_stable_truncated lower_ascii ranking_catalog ["G"; "C"] 2).
  - discriminate.
  - lia.
Defined.

Lemma next_chords_five_cyclic_witness :
  length (entry_next_chords (circular_song, 1%Q, ["C"; "G"; "D"; "G"; "C"])) = 5.
Proof.
  apply (next_chords_five_cyclic lower_ascii [("circular", circular_song)] ["D"; "G"] 5
           (circular_song, 1%Q, ["C"; "G"; "D"; "G"; "C"])).
  vm_compute. left. reflexivity.
Defined.

(** * Further properties of the tokenizer *)

(** The tokens [findall] produces. *)
Lemma findall_tokens (n : nat) :
  forall text, String.length text <= n ->
    Forall (fun t => exists c,
                (t = String c EmptyString /\ is_root c = false /\ is_symbol c = true)
                \/ (t = String c EmptyString /\ is_root c = true)
                \/ (exists a, t = String c (String a EmptyString)
                              /\ is_root c = true /\ is_accidental a = true))
           (findall text).
Proof.
  induction n as [|n IH]; intros text Hlen.
  - destruct text; [constructor|simpl in Hlen; lia].
  - destruct text as [|c rest]; [constructor|].
    simpl in Hlen. cbn [findall].
    destruct (is_root c) eqn:Hr.
    + destruct rest as [|a rest'].
      * constructor; [|constructor]. exists c. right. left. now split.
      * simpl in Hlen. destruct (is_accidental a) eqn:Ha.
        -- constructor; [|apply IH; lia].
           exists c. right. right. exists a. now repeat split.
        -- constructor; [|apply IH; simpl; lia].
           exists c. right. left. now split.
    + destruct (is_symbol c) eqn:Hs.
      * constructor; [|apply IH; lia]. exists c. left. now repeat split.
      * apply IH. lia.
Qed.

Lemma upper_root (c : ascii) :
  is_root c = true -> in_range "A" "G" (upper_char c) = true.
Proof.
  destruct c as [[] [] [] [] [] [] [] []]; vm_compute; congruence.
Qed.

Lemma upper_accidental (a : ascii) :
  is_accidental a = true ->
  (Ascii.eqb (upper_char a) "#" || Ascii.eqb (upper_char a) "B") = true.
Proof.
  destruct a as [[] [] [] [] [] [] [] []]; vm_compute; congruence.
Qed.

Lemma root_not_marker (c : ascii) (rest : string) :
  is_root c = true ->
  (String c rest =? "|")%string = false
  /\ (String c rest =? "%")%string = false
  /\ (String c rest =? "/")%string = false.
Proof.
  destruct c as [[] [] [] [] [] [] [] []]; vm_compute; intros H;
    try discriminate; repeat split; destruct rest; reflexivity.
Qed.

Lemma symbol_is_marker (c : ascii) :
  is_symbol c = true ->
  String c EmptyString = "|" \/ String c EmptyString = "%" \/ String c EmptyString = "/".
Proof.
  destruct c as [[] [] [] [] [] [] [] []]; vm_compute; intros H;
    try discriminate; auto.
Qed.

Lemma repeat_last_Forall (P : string -> Prop) (out : list string) :
  Forall P out -> Forall P (repeat_last out).
Proof.
  intros H. unfold repeat_last. destruct out as [|x out]; [exact H|].
  apply Forall_app. split; [exact H|]. constructor; [|constructor].
  rewrite Forall_forall in H. apply H.
  destruct (@exists_last _ (x :: out) ltac:(discriminate)) as [l' [y E]].
  rewrite E, last_last. apply in_or_app. right. now left.
Qed.

Lemma parse_step_chord_tokens (out : list string) (t : string) :
  Forall (fun x => chord_token x = true) out ->
  (exists c,
      (t = String c EmptyString /\ is_root c = false /\ is_symbol c = true)
      \/ (t = String c EmptyString /\ is_root c = true)
      \/ (exists a, t = String c (String a EmptyString)
                    /\ is_root c = true /\ is_accidental a = true)) ->
  Forall (fun x => chord_token x = true) (parse_step out t).
Proof.
  intros Hout [c [[-> [_ Hs]] | [[-> Hr] | [a [-> [Hr Ha]]]]]]; unfold parse_step.
  - destruct (symbol_is_marker c Hs) as [-> | [-> | ->]]; cbn;
      try exact Hout; now apply repeat_last_Forall.
  - destruct (root_not_marker c EmptyString Hr) as [-> [-> ->]].
    apply Forall_app. split; [exact Hout|]. constructor; [|constructor].
    cbn. now apply upper_root.
  - destruct (root_not_marker c (String a EmptyString) Hr) as [-> [-> ->]].
    apply Forall_app. split; [exact Hout|]. constructor; [|constructor].
    cbn. rewrite (upper_root c Hr). now apply upper_accidental.
Qed.

(** X1. Whatever the text, every token of the parsed progression is an
    upper-case root letter [A]-[G], alone or followed by [#] or [B]: bars
    and repeat markers never reach the output, chord qualities are dropped,
    and a flat sign comes out as [B]. *)
Theorem parse_emits_chord_tokens (text : string) :
  forallb chord_token (parse_progression_from_text text) = true.
Proof.
  apply forallb_forall. apply Forall_forall.
  unfold parse_progression_from_text, parse_tokens.
  pose proof (findall_tokens (String.length text) text (le_n _)) as Ht.
  assert (Forall (fun x => chord_token x = true) (@nil string)) as Hacc by constructor.
  revert Hacc. generalize (@nil string) as acc.
  induction Ht as [|t ts Hhd _ IH]; intros acc Hacc; cbn [fold_left]; [exact Hacc|].
  apply IH. now apply parse_step_chord_tokens.
Qed.

Lemma findall_without_roots (text : string) :
  string_forallb (fun c => negb (is_root c)) text = true ->
  Forall (fun t => t = "|" \/ t = "%" \/ t = "/") (findall text).
Proof.
  induction text as [|c rest IH]; cbn [string_forallb findall]; [constructor|].
  intros H. apply andb_true_iff in H. destruct H as [Hc Hrest].
  apply negb_true_iff in Hc. rewrite Hc.
  destruct (is_symbol c) eqn:Hs; [|now apply IH].
  constructor; [now apply symbol_is_marker | now apply IH].
Qed.

(** X2. A text without any letter [A]-[G] (in either case) parses to the
    empty progression, whatever bars and repeat markers it holds: a repeat
    marker has nothing to repeat. *)
Theorem parse_without_roots_is_empty (text : string) :
  string_forallb (fun c => negb (is_root c)) text = true ->
  parse_progression_from_text text = [].
Proof.
  intros H. apply findall_without_roots in H.
  unfold parse_progression_from_text, parse_tokens.
  induction H as [|t ts Ht _ IH]; [reflexivity|].
  cbn [fold_left]. destruct Ht as [-> | [-> | ->]]; exact IH.
Qed.

Lemma parse_without_roots_is_empty_witness :
  parse_progression_from_text "| % / 7 %% |" = [].
Proof.
  apply (parse_without_roots_is_empty "| % / 7 %% |"). reflexivity.
Defined.

(** The tokenizer splits at every point that is not followed by an
    accidental. *)
Lemma findall_app (post : string) :
  no_leading_accidental post = true ->
  forall n pre, String.length pre <= n ->
    findall (pre ++ post)%string = findall pre ++ findall post.
Proof.
  intros Hp n.
  induction n as [|n IH]; intros pre Hlen.
  - destruct pre; [reflexivity|simpl in Hlen; lia].
  - destruct pre as [|c r]; [reflexivity|].
    simpl in Hlen. cbn [append findall].
    destruct (is_root c).
    + destruct r as [|a r'].
      * cbn [append findall]. destruct post as [|b post']; [reflexivity|].
        cbn [no_leading_accidental] in Hp. apply negb_true_iff in Hp.
        rewrite Hp. reflexivity.
      * cbn [append]. simpl in Hlen.
        destruct (is_accidental a).
        -- rewrite IH by lia. reflexivity.
        -- change (String a (r' ++ post)%string) with ((String a r') ++ post)%string.
           rewrite IH by (simpl; lia). reflexivity.
    + destruct (is_symbol c); rewrite IH by lia; reflexivity.
Qed.

(** X3. Parsing is compositional: when the second part of a text does not
    begin with [#] or [b], the result for the whole text is the second
    part's tokens processed on top of the result for the first part. *)
Theorem parse_splits (pre post : string) :
  no_leading_accidental post = true ->
  parse_progression_from_text (pre ++ post)%string
  = parse_tokens (findall post) (parse_progression_from_text pre).
Proof.
  intros Hp. unfold parse_progression_from_text.
  rewrite (findall_app post Hp (String.length pre) pre (le_n _)).
  apply parse_tokens_app.
Qed.

Lemma parse_splits_witness :
  parse_progression_from_text ("Am7 | C" ++ " % G")%string
  = parse_tokens (findall " % G") (parse_progression_from_text "Am7 | C").
Proof.
  apply (parse_splits "Am7 | C" " % G"). reflexivity.
Defined.

(** X4. A character that is neither a root letter nor [#], [%] or [/]
    (white space, a digit, a quality suffix such as [m] or [7], a bar)
    contributes nothing: the text parses as its two sides do in sequence. *)
Theorem parse_ignores_other_characters (c : ascii) (pre post : string) :
  is_root c = false -> is_accidental c = false ->
  c <> "%"%char -> c <> "/"%char ->
  parse_progression_from_text (pre ++ String c post)%string
  = parse_tokens (findall post) (parse_progression_from_text pre).
Proof.
  intros Hr Ha Hpc Hsl. unfold parse_progression_from_text.
  rewrite (findall_app (String c post)) with (n := String.length pre);
    [|cbn; now rewrite Ha|apply le_n].
  rewrite parse_tokens_app. cbn [findall]. rewrite Hr.
  destruct (is_symbol c) eqn:Hs; [|reflexivity].
  destruct (symbol_is_marker c Hs) as [E | [E | E]]; injection E as ->;
    [reflexivity | congruence | congruence].
Qed.

Lemma parse_ignores_other_characters_witness :
  parse_progression_from_text ("A" ++ String "m" "7 C")%string
  = parse_tokens (findall "7 C") (parse_progression_from_text "A").
Proof.
  apply (parse_ignores_other_characters "m" "A" "7 C");
    [reflexivity | reflexivity | discriminate | discriminate].
Defined.

Lemma findall_length (n : nat) :
  forall text, String.length text <= n -> length (findall text) <= String.length text.
Proof.
  induction n as [|n IH]; intros text Hlen.
  - destruct text; [cbn; lia|simpl in Hlen; lia].
  - destruct text as [|c rest]; [cbn; lia|].
    simpl in Hlen. cbn [findall String.length].
    destruct (is_root c).
    + destruct rest as [|a rest']; [cbn; lia|].
      simpl in Hlen. destruct (is_accidental a); cbn [length String.length].
      * specialize (IH rest' ltac:(lia)). lia.
      * specialize (IH (String a rest') ltac:(simpl; lia)). cbn [String.length] in IH. lia.
    + destruct (is_symbol c); cbn [length]; specialize (IH rest ltac:(lia)); lia.
Qed.

Lemma parse_step_length (out : list string) (t : string) :
  length (parse_step out t) <= S (length out).
Proof.
  unfold parse_step, repeat_last.
  destruct (t =? "|")%string; [lia|].
  destruct (t =? "%")%string; [destruct out; [cbn; lia|rewrite length_app; cbn; lia]|].
  destruct (t =? "/")%string; [destruct out; [cbn; lia|rewrite length_app; cbn; lia]|].
  rewrite length_app. cbn. lia.
Qed.

(** X5. The parsed progression never has more tokens than the text has
    characters. *)
Theorem parse_length_bounded (text : string) :
  length (parse_progression_from_text text) <= String.length text.
Proof.
  pose proof (findall_length (String.length text) text (le_n _)) as Hf.
  unfold parse_progression_from_text, parse_tokens.
  assert (forall ts acc, length (fold_left parse_step ts acc) <= length acc + length ts) as H.
  { induction ts as [|t ts IH]; intros acc; cbn [fold_left length]; [lia|].
    specialize (IH (parse_step acc t)). pose proof (parse_step_length acc t). lia. }
  specialize (H (findall text) []). cbn [length] in H. lia.
Qed.

(** * Further properties of the matcher *)

Section MatcherMore.
Variable lower : string -> string.

(** What the inner loop has seen when it stops. *)
Lemma inner_loop_prefix (ext pattern : list string) (i : nat) :
  forall k j0 acc,
    let r := Z.to_nat (inner_loop lower ext pattern i (seq j0 k) acc - acc) in
    inner_loop lower ext pattern i (seq j0 k) acc = (acc + Z.of_nat r)%Z
    /\ r <= k
    /\ (forall j, j0 <= j < j0 + r ->
          i + j < length ext
          /\ chord_eq lower (nth (i + j) ext EmptyString)
                            (nth (j mod length pattern) pattern EmptyString) = true)
    /\ (r = k
        \/ length ext <= i + (j0 + r)
        \/ chord_eq lower (nth (i + (j0 + r)) ext EmptyString)
                          (nth ((j0 + r) mod length pattern) pattern EmptyString) = false).
Proof.
  induction k as [|k IH]; intros j0 acc; cbn [seq inner_loop].
  - rewrite Z.sub_diag. cbn. repeat split; lia.
  - destruct (length ext <=? i + j0) eqn:E.
    + apply Nat.leb_le in E. rewrite Z.sub_diag. cbn.
      repeat split; lia.
    + apply Nat.leb_gt in E.
      destruct (chord_eq lower (nth (i + j0) ext EmptyString)
                  (nth (j0 mod length pattern) pattern EmptyString)) eqn:Hm.
      * specialize (IH (S j0) (acc + 1)%Z). cbv zeta in IH.
        destruct IH as [Heq [Hle [Hall Hstop]]].
        set (r' := Z.to_nat (inner_loop lower ext pattern i (seq (S j0) k) (acc + 1) - (acc + 1))) in *.
        assert (Z.to_nat (inner_loop lower ext pattern i (seq (S j0) k) (acc + 1) - acc) = S r') as ->
          by (rewrite Heq; lia).
        split; [rewrite Heq; lia|]. split; [lia|]. split.
        -- intros j Hj. destruct (Nat.eq_dec j j0) as [->|Hne]; [now split|].
           apply Hall. lia.
        -- replace (j0 + S r') with (S j0 + r') by lia.
           destruct Hstop as [-> | Hstop]; [now left | right; exact Hstop].
      * rewrite Z.sub_diag. cbn. repeat split; try lia.
        right. right. now rewrite Nat.add_0_r.
Qed.

Lemma match_run_prefix (pattern progression : list string) (i : nat) :
  let r := Z.to_nat (match_run lower pattern progression i) in
  match_run lower pattern progression i = Z.of_nat r
  /\ r <= length pattern
  /\ (forall j, j < r ->
        i + j < 2 * length progression
        /\ chord_eq lower (nth (i + j) (progression ++ progression) EmptyString)
                          (nth j pattern EmptyString) = true)
  /\ (r = length pattern
      \/ 2 * length progression <= i + r
      \/ chord_eq lower (nth (i + r) (progression ++ progression) EmptyString)
                        (nth r pattern EmptyString) = false).
Proof.
  cbv zeta. unfold match_run.
  pose proof (inner_loop_prefix (progression ++ progression) pattern i
                (length pattern) 0 0%Z) as H.
  cbv zeta in H. rewrite Z.sub_0_r, length_app in H. cbn [Nat.add] in H.
  set (r := Z.to_nat (inner_loop lower (progression ++ progression) pattern i
                        (seq 0 (length pattern)) 0)) in *.
  destruct H as [Heq [Hle [Hall Hstop]]].
  split; [rewrite Heq; lia|]. split; [exact Hle|]. split.
  - intros j Hj. destruct (Hall j ltac:(lia)) as [Hb Hm].
    rewrite Nat.mod_small in Hm by lia. split; [lia|exact Hm].
  - destruct Hstop as [Hs | [Hs | Hs]]; [now left | right; left; lia |].
    destruct (Nat.eq_dec r (length pattern)) as [E|E]; [now left|].
    right. right. rewrite Nat.mod_small in Hs by lia. exact Hs.
Qed.

(** X6. The run counted at an offset is a matched prefix of the pattern:
    its chords match the doubled progression position by position, and it
    ends only at the end of the pattern, at the end of the doubled
    progression, or at a mismatch. *)
Theorem match_run_is_longest_matching_prefix (pattern progression : list string) (i : nat) :
  let r := Z.to_nat (match_run lower pattern progression i) in
  match_run lower pattern progression i = Z.of_nat r
  /\ r <= length pattern
  /\ (forall j, j < r ->
        i + j < 2 * length progression
        /\ chord_eq lower (nth (i + j) (progression ++ progression) EmptyString)
                          (nth j pattern EmptyString) = true)
  /\ (r = length pattern
      \/ 2 * length progression <= i + r
      \/ chord_eq lower (nth (i + r) (progression ++ progression) EmptyString)
                        (nth r pattern EmptyString) = false).
Proof. exact (match_run_prefix pattern progression i). Qed.

Lemma match_run_window (pattern progression : list string) (i : nat) :
  (0 < match_run lower pattern progression i)%Z ->
  (Z.of_nat i + match_run lower pattern progression i
   <= 2 * Z.of_nat (length progression))%Z.
Proof.
  intros Hpos.
  pose proof (match_run_prefix pattern progression i) as H. cbv zeta in H.
  set (r := Z.to_nat (match_run lower pattern progression i)) in *.
  destruct H as [Heq [_ [Hall _]]].
  destruct r as [|r']; [lia|].
  destruct (Hall r' ltac:(lia)) as [Hb _]. lia.
Qed.

Lemma occurs_at_run (pattern progression : list string) (i : nat) :
  pattern <> [] ->
  occurs_at lower pattern progression i <->
  match_run lower pattern progression i = Z.of_nat (length pattern).
Proof.
  pose proof (match_run_prefix pattern progression i) as H.
  cbv zeta in H.
  set (r := Z.to_nat (match_run lower pattern progression i)) in *.
  destruct H as [Heq [Hle [Hall Hstop]]].
  intros Hp. split.
  - intros [Hfit Hocc]. rewrite Heq. f_equal.
    destruct Hstop as [Hs | [Hs | Hs]]; [exact Hs | lia |].
    destruct (Nat.eq_dec r (length pattern)) as [E|E]; [exact E|].
    rewrite (Hocc r ltac:(lia)) in Hs. discriminate.
  - intros Hrun. assert (r = length pattern) as Hr by lia.
    split.
    + destruct pattern as [|x pattern']; [congruence|].
      cbn [length] in *.
      destruct (Hall (length pattern') ltac:(lia)) as [Hb _]. lia.
    + intros j Hj. apply Hall. lia.
Qed.

(** X7. For a non-empty pattern the returned match length is the whole
    pattern exactly when the pattern lies, chord for chord and without
    regard to case, in the doubled progression from some start offset. *)
Theorem full_match_iff_pattern_occurs (pattern progression : list string) :
  pattern <> [] ->
  snd (_find_best_match lower pattern progression) = Z.of_nat (length pattern)
  <-> exists i, i < length progression /\ occurs_at lower pattern progression i.
Proof.
  intros Hp.
  assert (0 < length pattern) as Hm by (destruct pattern; [congruence|cbn; lia]).
  destruct (best_match_cases lower pattern progression)
    as [Hall [[Heq Hzero] | [Hpos [i [_ [Hr [Hlt _]]]]]]].
  - rewrite Heq. cbn [snd]. split; [lia|].
    intros [i [Hi Hocc]]. apply (occurs_at_run pattern progression i Hp) in Hocc.
    rewrite (Hzero i Hi) in Hocc. lia.
  - split.
    + intros Hfull. exists i. split; [exact Hlt|].
      apply (occurs_at_run pattern progression i Hp). congruence.
    + intros [k [Hk Hocc]]. apply (occurs_at_run pattern progression k Hp) in Hocc.
      pose proof (Hall k Hk) as Hle. rewrite Hocc in Hle.
      pose proof (match_run_bounds lower pattern progression i). lia.
Qed.

(** X8. The match never reads past the doubled progression: start index
    plus match length is at most twice the length of the progression, so a
    pattern longer than that is never matched in full. *)
Theorem match_stays_within_two_laps (pattern progression : list string) :
  (fst (_find_best_match lower pattern progression)
   + snd (_find_best_match lower pattern progression)
   <= 2 * Z.of_nat (length progression))%Z
  /\ (snd (_find_best_match lower pattern progression)
      <= 2 * Z.of_nat (length progression))%Z.
Proof.
  destruct (best_match_cases lower pattern progression)
    as [_ [[Heq _] | [Hpos [i [Hi [Hr [Hlt _]]]]]]].
  - rewrite Heq. cbn [fst snd]. lia.
  - rewrite <- Hr in Hpos |- *. rewrite Hi.
    pose proof (match_run_window pattern progression i Hpos). lia.
Qed.

Lemma nth_lower_eq (l l' : list string) :
  Forall2 (fun a b => lower a = lower b) l l' ->
  forall k, lower (nth k l EmptyString) = lower (nth k l' EmptyString).
Proof.
  induction 1 as [|a b l l' Hab _ IH]; intros k; [reflexivity|].
  destruct k as [|k]; [exact Hab|apply IH].
Qed.

Lemma inner_loop_same_chords (ext ext' pattern pattern' : list string) (i : nat) :
  Forall2 (fun a b => lower a = lower b) ext ext' ->
  Forall2 (fun a b => lower a = lower b) pattern pattern' ->
  forall js acc,
    inner_loop lower ext pattern i js acc = inner_loop lower ext' pattern' i js acc.
Proof.
  intros He Hp.
  pose proof (Forall2_length He) as Le. pose proof (Forall2_length Hp) as Lp.
  induction js as [|j js IH]; intros acc; cbn [inner_loop]; [reflexivity|].
  rewrite <- Le, <- Lp. unfold chord_eq.
  rewrite (nth_lower_eq ext ext' He), (nth_lower_eq pattern pattern' Hp), IH.
  reflexivity.
Qed.

(** X9. The match does not depend on letter case: patterns and progressions
    that agree chord by chord after lower-casing give the same start index
    and match length. *)
Theorem best_match_ignores_case (pattern pattern' progression progression' : list string) :
  Forall2 (fun a b => lower a = lower b) pattern pattern' ->
  Forall2 (fun a b => lower a = lower b) progression progression' ->
  _find_best_match lower pattern progression
  = _find_best_match lower pattern' progression'.
Proof.
  intros Hp Hg. unfold _find_best_match.
  rewrite <- (Forall2_length Hg).
  assert (forall i, match_run lower pattern progression i
                    = match_run lower pattern' progression' i) as Hrun.
  { intros i. unfold match_run. rewrite <- (Forall2_length Hp).
    apply inner_loop_same_chords; [now apply Forall2_app|exact Hp]. }
  assert (forall offsets best,
             fold_left (outer_step lower pattern progression) offsets best
             = fold_left (outer_step lower pattern' progression') offsets best) as Hfold.
  { induction offsets as [|i offsets IH]; intros best; cbn [fold_left]; [reflexivity|].
    rewrite IH. unfold outer_step. now rewrite Hrun. }
  now rewrite Hfold.
Qed.

(** X10. With an empty pattern or an empty progression there is nothing to
    match: the result is the sentinel index [-1] with match length 0. *)
Theorem best_match_of_empty (chords : list string) :
  _find_best_match lower [] chords = ((-1)%Z, 0%Z)
  /\ _find_best_match lower chords [] = ((-1)%Z, 0%Z).
Proof.
  split; [|reflexivity].
  destruct (best_match_cases lower [] chords)
    as [_ [[Heq _] | [Hpos [i [_ [Hr _]]]]]]; [exact Heq|].
  pose proof (match_run_bounds lower [] chords i) as Hb. cbn [length] in Hb. lia.
Qed.

End MatcherMore.

Lemma full_match_iff_pattern_occurs_witness :
  snd (_find_best_match lower_ascii ["D"; "g"] ["G"; "C"; "G"; "D"])
  = Z.of_nat (length ["D"; "g"])
  <-> exists i, i < length ["G"; "C"; "G"; "D"]
           /\ occurs_at lower_ascii ["D"; "g"] ["G"; "C"; "G"; "D"] i.
Proof.
  apply (full_match_iff_pattern_occurs lower_ascii ["D"; "g"] ["G"; "C"; "G"; "D"]).
  discriminate.
Defined.

Lemma best_match_ignores_case_witness :
  _find_best_match lower_ascii ["d"; "G"] ["G"; "c"; "g"; "D"]
  = _find_best_match lower_ascii ["D"; "g"] ["g"; "C"; "G"; "d"].
Proof.
  apply (best_match_ignores_case lower_ascii);
    repeat (constructor; [reflexivity|]); constructor.
Defined.

(** * Further properties of the ranking *)

Lemma similarity_of_fraction (len : Z) (n : nat) :
  (0 < len <= Z.of_nat n)%Z ->
  (similarity_of len n == inject_Z len / inject_Z (Z.of_nat n))%Q
  /\ (0 < similarity_of len n)%Q
  /\ (similarity_of len n <= 1)%Q
  /\ ((similarity_of len n == 1)%Q <-> len = Z.of_nat n).
Proof.
  intros [Hpos Hle].
  assert (0 < inject_Z (Z.of_nat n))%Q as Hn
    by (change 0%Q with (inject_Z 0); rewrite <- Zlt_Qlt; lia).
  assert (~ inject_Z (Z.of_nat n) == 0)%Q as Hn0
    by (intros E; rewrite E in Hn; now apply Qlt_irrefl in Hn).
  set (r := (inject_Z len / inject_Z (Z.of_nat n))%Q).
  assert (0 < r)%Q as Hr0.
  { apply Qlt_shift_div_l; [exact Hn|]. rewrite Qmult_0_l.
    change 0%Q with (inject_Z 0). rewrite <- Zlt_Qlt. exact Hpos. }
  assert (r <= 1)%Q as Hr1.
  { apply Qle_shift_div_r; [exact Hn|]. rewrite Qmult_1_l.
    rewrite <- Zle_Qle. exact Hle. }
  assert ((r == 1)%Q <-> len = Z.of_nat n) as Hone.
  { split.
    - intros E. apply inject_Z_injective.
      rewrite <- (Qmult_1_l (inject_Z (Z.of_nat n))), <- E.
      unfold r. now rewrite Qmult_comm, Qmult_div_r.
    - intros ->. unfold r. unfold Qdiv. now apply Qmult_inv_r. }
  assert (similarity_of len n == r)%Q as Hsim.
  { unfold similarity_of. fold r. cbv zeta.
    destruct (Qle_bool 1 r) eqn:E; [|reflexivity].
    apply Qle_bool_iff in E. symmetry. now apply Qle_antisym. }
  split; [exact Hsim|]. rewrite Hsim. repeat split; try assumption; apply Hone.
Qed.

Section RankingMore.
Variable lower : string -> string.

Lemma included_iff_matches_first (current : list string) (song : Song) :
  current <> [] ->
  included lower current song = true <-> matches_first lower current song.
Proof.
  intros Hc. unfold included, matches_first.
  destruct (progression song) as [|c g] eqn:Eg.
  - split; [discriminate|]. intros [H _]. congruence.
  - rewrite <- Eg.
    destruct (best_match_cases lower current (progression song))
      as [Hall [[Heq Hzero] | [Hpos [i [_ [Hr [Hlt _]]]]]]].
    + rewrite Heq. cbn [snd]. split; [discriminate|].
      intros [_ [i [Hi Hm]]].
      pose proof (match_run_first lower current (progression song) i Hc Hi) as F.
      rewrite Hm, (Hzero i Hi) in F. lia.
    + split.
      * intros _. split; [congruence|]. exists i. split; [exact Hlt|].
        pose proof (match_run_first lower current (progression song) i Hc Hlt) as F.
        destruct (chord_eq lower _ _); [reflexivity|]. lia.
      * intros _. apply Z.gtb_lt. exact Hpos.
Qed.

Lemma in_find_similar (songs : dict Song) (current : list string) (top_n : Z) (e : entry) :
  In e (find_similar_progressions lower songs current top_n) ->
  current <> []
  /\ exists song, e = entry_of lower current song
             /\ In song (values songs)
             /\ included lower current song = true.
Proof.
  intros Hin. unfold find_similar_progressions in Hin.
  destruct current as [|c current']; [contradiction|].
  split; [discriminate|].
  apply in_slice_to in Hin.
  apply (Permutation_in _ (sort_desc_perm entry_similarity _)) in Hin.
  rewrite scored_in_catalog_order in Hin.
  apply in_map_iff in Hin. destruct Hin as [song [<- Hsong]].
  apply filter_In in Hsong. exists song. now split.
Qed.

(** X11. Only songs that can be matched are returned: every returned entry
    belongs to a song of the catalog that has chords, one of which matches
    the first chord of the current progression; songs with an empty
    progression or without such a chord never appear. *)
Theorem only_matching_songs_are_returned
    (songs : dict Song) (current : list string) (top_n : Z) (e : entry) :
  In e (find_similar_progressions lower songs current top_n) ->
  In (entry_song e) (values songs)
  /\ matches_first lower current (entry_song e).
Proof.
  intros Hin. apply in_find_similar in Hin.
  destruct Hin as [Hc [song [-> [Hv Hinc]]]].
  rewrite entry_song_of. split; [exact Hv|].
  now apply included_iff_matches_first.
Qed.

(** X12. Nothing is lost when [top_n] is at least the size of the catalog:
    for a non-empty current progression, every song of the catalog that has
    chords, one of which matches the first chord of the current
    progression, has its entry in the result. *)
Theorem every_matching_song_is_returned
    (songs : dict Song) (current : list string) (top_n : Z) (song : Song) :
  current <> [] ->
  (Z.of_nat (length songs) <= top_n)%Z ->
  In song (values songs) ->
  matches_first lower current song ->
  In (entry_of lower current song) (find_similar_progressions lower songs current top_n).
Proof.
  intros Hc Hn Hv Hm.
  apply included_iff_matches_first in Hm; [|exact Hc].
  unfold find_similar_progressions, slice_to.
  destruct current as [|c current']; [congruence|].
  destruct (Z.ltb_spec top_n 0) as [Hneg|_]; [lia|].
  set (ranked := sort_desc entry_similarity (scored lower (c :: current') songs)).
  assert (Permutation ranked (scored lower (c :: current') songs)) as Hperm
    by apply sort_desc_perm.
  assert (length ranked <= length songs) as Hlen.
  { rewrite (Permutation_length Hperm), scored_in_catalog_order, length_map.
    etransitivity; [apply filter_length_le|].
    unfold values. now rewrite length_map. }
  rewrite firstn_all2 by lia.
  apply (Permutation_in _ (Permutation_sym Hperm)).
  rewrite scored_in_catalog_order. apply in_map. apply filter_In. now split.
Qed.

(** X13. The similarity of a returned entry is exactly the match length
    divided by the length of the current progression; it is positive, at
    most 1 (the [min] never cuts anything off), and equal to 1 exactly when
    the whole current progression was matched. *)
Theorem similarity_is_matched_fraction
    (songs : dict Song) (current : list string) (top_n : Z) (e : entry) :
  In e (find_similar_progressions lower songs current top_n) ->
  let match_length :=
    snd (_find_best_match lower current (progression (entry_song e))) in
  (entry_similarity e
   == inject_Z match_length / inject_Z (Z.of_nat (length current)))%Q
  /\ (0 < entry_similarity e)%Q
  /\ (entry_similarity e <= 1)%Q
  /\ ((entry_similarity e == 1)%Q <-> match_length = Z.of_nat (length current)).
Proof.
  intros Hin. apply in_find_similar in Hin.
  destruct Hin as [Hc [song [-> [Hv Hinc]]]].
  rewrite entry_song_of. cbv zeta.
  assert (0 < snd (_find_best_match lower current (progression song))
          <= Z.of_nat (length current))%Z as Hb.
  { split.
    - unfold included in Hinc. destruct (progression song); [discriminate|].
      now apply Z.gtb_lt.
    - destruct (best_match_cases lower current (progression song))
        as [_ [[-> _] | [_ [i [_ [<- _]]]]]]; [cbn; lia|].
      apply match_run_bounds. }
  unfold entry_of, entry_similarity.
  destruct (_find_best_match lower current (progression song)) as [idx len].
  cbn [fst snd] in *. now apply similarity_of_fraction.
Qed.

End RankingMore.

Lemma only_matching_songs_are_returned_witness :
  In (entry_song (circular_song, 1%Q, ["C"; "G"; "D"; "G"; "C"]))
     (values [("circular", circular_song)])
  /\ matches_first lower_ascii ["D"; "G"]
       (entry_song (circular_song, 1%Q, ["C"; "G"; "D"; "G"; "C"])).
Proof.
  apply (only_matching_songs_are_returned lower_ascii
           [("circular", circular_song)] ["D"; "G"] 5).
  vm_compute. left. reflexivity.
Defined.

Lemma every_matching_song_is_returned_witness :
  In (entry_of lower_ascii ["G"; "C"] (song_of "SongB" ["C"; "G"; "C"]))
     (find_similar_progressions lower_ascii ranking_catalog ["G"; "C"] 4).
Proof.
  apply (every_matching_song_is_returned lower_ascii ranking_catalog ["G"; "C"] 4).
  - discriminate.
  - cbn. lia.
  - cbn. right. right. left. reflexivity.
  - split; [discriminate|]. exists 1. split; [cbn; lia|reflexivity].
Defined.

Lemma similarity_is_matched_fraction_witness :
  (entry_similarity (circular_song, 1%Q, ["C"; "G"; "D"; "G"; "C"]) <= 1)%Q.
Proof.
  apply (similarity_is_matched_fraction lower_ascii
           [("circular", circular_song)] ["D"; "G"] 5
           (circular_song, 1%Q, ["C"; "G"; "D"; "G"; "C"])).
  vm_compute. left. reflexivity.
Defined.

(** * Further properties of the catalog *)

Lemma starts_with_spec (q s : string) :
  starts_with q s = true <-> exists b, s = (q ++ b)%string.
Proof.
  revert s. induction q as [|a q IH]; intros s; cbn [starts_with append].
  - split; [intros _; now exists s|reflexivity].
  - destruct s as [|b s].
    + split; [discriminate|]. intros [x Hx]. discriminate.
    + rewrite andb_true_iff, Ascii.eqb_eq, IH. split.
      * intros [-> [x ->]]. now exists x.
      * intros [x Hx]. injection Hx as -> ->. split; [reflexivity|now exists x].
Qed.

Lemma contains_spec (q s : string) :
  contains q s = true <-> substring_of q s.
Proof.
  unfold substring_of. split.
  - induction s as [|c s IH]; cbn [contains]; rewrite orb_true_iff.
    + intros [H | H]; [|discriminate].
      apply starts_with_spec in H. destruct H as [b ->]. now exists EmptyString, b.
    + intros [H | H].
      * apply starts_with_spec in H. destruct H as [b ->]. now exists EmptyString, b.
      * destruct (IH H) as [a [b ->]]. now exists (String c a), b.
  - intros [a [b ->]]. induction a as [|c a IH]; cbn [append].
    + assert (starts_with q (q ++ b) = true) as H
        by (apply starts_with_spec; now exists b).
      destruct (q ++ b)%string; cbn [contains]; now rewrite H.
    + cbn [contains]. rewrite IH. apply orb_true_r.
Qed.

Lemma contains_refl (s : string) : contains s s = true.
Proof.
  apply contains_spec. exists EmptyString, EmptyString. cbn [append].
  induction s as [|c s IH]; cbn [append]; [reflexivity|now rewrite <- IH].
Qed.

Lemma contains_empty (s : string) : contains EmptyString s = true.
Proof. destruct s; reflexivity. Qed.

Lemma filter_all {A} (f : A -> bool) (l : list A) :
  (forall x, In x l -> f x = true) -> filter f l = l.
Proof.
  induction l as [|x l IH]; intros H; cbn [filter]; [reflexivity|].
  rewrite (H x (or_introl eq_refl)), IH; [reflexivity|].
  intros y Hy. apply H. now right.
Qed.

Lemma has_key_in_keys {V} (k : string) (d : dict V) :
  has_key k d = true <-> In k (keys d).
Proof.
  unfold has_key. induction d as [|[k' v'] d IH]; cbn [dict_get keys map fst In].
  - split; [discriminate|contradiction].
  - destruct (k' =? k)%string eqn:E.
    + apply String.eqb_eq in E. split; [now left|reflexivity].
    + apply String.eqb_neq in E. rewrite IH. unfold keys. split; [now right|].
      intros [H | H]; [congruence|exact H].
Qed.

Lemma dict_set_absent {V} (k : string) (v : V) (d : dict V) :
  has_key k d = false -> dict_set k v d = d ++ [(k, v)].
Proof.
  unfold has_key. induction d as [|[k' v'] d IH]; cbn [dict_get dict_set app]; [reflexivity|].
  destruct (k' =? k)%string; [discriminate|]. intros H. now rewrite IH.
Qed.

Lemma dict_get_set_other {V} (k k0 : string) (v : V) (d : dict V) :
  k <> k0 -> dict_get k (dict_set k0 v d) = dict_get k d.
Proof.
  intros Hne. induction d as [|[k' v'] d IH]; cbn [dict_set dict_get].
  - destruct (k0 =? k)%string eqn:E; [|reflexivity].
    apply String.eqb_eq in E. congruence.
  - destruct (k' =? k0)%string eqn:E0; cbn [dict_get].
    + apply String.eqb_eq in E0. subst k'.
      destruct (k0 =? k)%string eqn:E; [|reflexivity].
      apply String.eqb_eq in E. congruence.
    + destruct (k' =? k)%string; [reflexivity|exact IH].
Qed.

Lemma dict_set_in_values {V} (k : string) (v : V) (d : dict V) :
  In v (values (dict_set k v d)).
Proof.
  induction d as [|[k' v'] d IH]; cbn [dict_set]; [now left|].
  destruct (k' =? k)%string; [now left|]. right. exact IH.
Qed.

Section CatalogMore.
Variable lower : string -> string.

(** X14. [search_songs] returns exactly the songs of the catalog whose
    lower-cased title or artist has the lower-cased query as a contiguous
    substring. *)
Theorem search_songs_finds_substrings (songs : dict Song) (query : string) (song : Song) :
  In song (search_songs lower songs query)
  <-> In song (values songs)
      /\ (substring_of (lower query) (lower (title song))
          \/ substring_of (lower query) (lower (artist song))).
Proof.
  unfold search_songs. cbv zeta.
  rewrite filter_In, orb_true_iff, !contains_spec. reflexivity.
Qed.

(** X15. A query that lower-cases to the empty string (the empty query)
    selects every song, in catalog order. *)
Theorem search_songs_empty_query (songs : dict Song) (query : string) :
  lower query = EmptyString ->
  search_songs lower songs query = values songs.
Proof.
  intros Hq. unfold search_songs. cbv zeta. rewrite Hq.
  apply filter_all. intros song _. now rewrite contains_empty.
Qed.

(** X16. A song just added is found by its title in any letter case: the
    record stored by [add_song] is among the results of [search_songs] for
    every query that lower-cases like the title. *)
Theorem added_song_is_found_by_title
    (songs : dict Song) (t a : string) (p : list string) (s query : string) :
  lower query = lower t ->
  In (mkSong t a p (VStr s) default_source (VDict []))
     (search_songs lower (fst (add_song lower songs t a p s)) query).
Proof.
  intros Hq. unfold search_songs, add_song. cbv zeta. cbn [fst].
  apply filter_In. split.
  - apply (dict_set_in_values (lower t)).
  - cbn [title]. rewrite Hq, contains_refl. reflexivity.
Qed.

(** X17. [add_song] touches one key only: looking up any other key gives
    what it gave before. *)
Theorem add_song_keeps_other_keys
    (songs : dict Song) (t a : string) (p : list string) (s k : string) :
  k <> lower t ->
  dict_get k (fst (add_song lower songs t a p s)) = dict_get k songs.
Proof.
  intros Hk. unfold add_song. cbn [fst]. now apply dict_get_set_other.
Qed.

(** X18. A song added under a title whose key is new comes last in the
    iteration order of the catalog, after all the songs already there. *)
Theorem add_song_new_key_comes_last
    (songs : dict Song) (t a : string) (p : list string) (s : string) :
  has_key (lower t) songs = false ->
  fst (add_song lower songs t a p s)
  = songs ++ [(lower t, mkSong t a p (VStr s) default_source (VDict []))].
Proof.
  intros Hk. unfold add_song. cbn [fst]. now apply dict_set_absent.
Qed.

Lemma well_keyed_set (songs : dict Song) (k : string) (song : Song) :
  k = lower (title song) -> well_keyed lower songs ->
  well_keyed lower (dict_set k song songs).
Proof.
  intros Hk [Hnd Hall]. destruct (has_key k songs) eqn:E.
  - split.
    + now rewrite (proj2 (dict_set_present k song songs E)).
    + clear Hnd E. induction songs as [|[k' v'] d IH]; cbn [dict_set].
      * constructor; [exact Hk|constructor].
      * inversion Hall as [|? ? Hhd Htl]; subst.
        destruct (k' =? lower (title song))%string eqn:E.
        -- apply String.eqb_eq in E. constructor; [exact E|exact Htl].
        -- constructor; [exact Hhd|now apply IH].
  - rewrite (dict_set_absent k song songs E). split.
    + unfold keys. rewrite map_app. cbn [map fst].
      apply (Permutation_NoDup (Permutation_cons_append (map fst songs) k)).
      constructor; [|exact Hnd].
      intros Hin. apply has_key_in_keys in Hin. congruence.
    + apply Forall_app. split; [exact Hall|]. constructor; [exact Hk|constructor].
Qed.

(** X19. [add_song] keeps the catalog well keyed: if no key occurs twice
    and every key is the lower-cased title of its song, the same holds
    after the call. *)
Theorem add_song_keeps_well_keyed
    (songs : dict Song) (t a : string) (p : list string) (s : string) :
  well_keyed lower songs ->
  well_keyed lower (fst (add_song lower songs t a p s)).
Proof.
  intros H. unfold add_song. cbn [fst]. now apply well_keyed_set.
Qed.

Lemma load_record_well_keyed (songs songs' : dict Song) (song_data : value) :
  well_keyed lower songs ->
  load_record lower songs song_data = Return songs' ->
  well_keyed lower songs'.
Proof.
  intros Hw. unfold load_record.
  destruct (accepts_kwargs song_data) as [d|]; [|discriminate].
  destruct (get_default "title" d VNone) as [| | |t| |]; try discriminate.
  destruct (as_str (get_default "artist" d VNone)) as [a| |]; try discriminate.
  destruct (as_str_list (get_default "progression" d VNone)) as [p| |]; try discriminate.
  destruct (as_str (get_default "source" d (VStr default_source))) as [s| |];
    try discriminate.
  cbn [bind]. intros H. injection H as <-.
  now apply well_keyed_set.
Qed.

Lemma for_each_well_keyed (items : list value) :
  forall songs songs',
    well_keyed lower songs ->
    for_each (load_record lower) items songs = Return songs' ->
    well_keyed lower songs'.
Proof.
  induction items as [|x items IH]; intros songs songs' Hw; cbn [for_each].
  - intros H. now injection H as <-.
  - destruct (load_record lower songs x) as [s1| |] eqn:E; try discriminate.
    cbn [bind]. apply IH. now apply (load_record_well_keyed songs s1 x).
Qed.

Lemma initialize_well_keyed (songs : dict Song) :
  well_keyed lower songs ->
  well_keyed lower (fst (_initialize_sample_songs lower songs)).
Proof.
  unfold _initialize_sample_songs. cbn [fst].
  generalize sample_songs as samples. intros samples. revert songs.
  induction samples as [|[[t a] p] samples IH]; intros songs Hw; cbn [fold_left];
    [exact Hw|].
  apply IH. now apply well_keyed_set.
Qed.

(** X20. Whenever the constructor succeeds, on a missing file or on any
    file it accepts, later records replacing earlier ones of the same key,
    the catalog is well keyed: no key occurs twice and every key is the
    lower-cased title of its song. *)
Theorem constructed_catalog_is_well_keyed
    (file : storage) (songs : dict Song) (file' : storage) :
  SongDatabase_init lower file = Return (songs, file') ->
  well_keyed lower songs.
Proof.
  assert (well_keyed lower []) as Hnil by (split; constructor).
  unfold SongDatabase_init, _load_songs.
  destruct (load_body lower [] file) as [s1|e|] eqn:E.
  - intros H. injection H as <- _.
    destruct file as [| |v]; cbn [load_body] in E; try discriminate.
    destruct (iterate v) as [items| |]; try discriminate.
    cbn [bind] in E. now apply (for_each_well_keyed items [] s1).
  - destruct e; try discriminate.
    pose proof (initialize_well_keyed [] Hnil) as Hi.
    destruct (_initialize_sample_songs lower []) as [s0 f0].
    intros H. injection H as <- _. exact Hi.
  - discriminate.
Qed.

Lemma as_str_list_items_strings (p : list string) :
  as_str_list_items (map VStr p) = Return p.
Proof.
  induction p as [|c p IH]; cbn [map as_str_list_items]; [reflexivity|].
  now rewrite IH.
Qed.

Lemma load_record_saved (songs : dict Song) (song : Song) :
  load_record lower songs (song_record song)
  = Return (dict_set (lower (title song)) (reloaded song) songs).
Proof.
  unfold load_record, song_record.
  change (accepts_kwargs (VDict ?d)) with (Some d).
  cbn [get_default dict_get String.eqb Ascii.eqb Bool.eqb as_str as_str_list bind].
  rewrite as_str_list_items_strings. reflexivity.
Qed.

Lemma for_each_saved (l : dict Song) :
  forall acc,
    NoDup (keys l) ->
    (forall k, In k (keys l) -> ~ In k (keys acc)) ->
    Forall (fun kv => fst kv = lower (title (snd kv))) l ->
    for_each (load_record lower) (map song_record (values l)) acc
    = Return (acc ++ map (fun kv => (fst kv, reloaded (snd kv))) l).
Proof.
  induction l as [|[k s] l IH]; intros acc Hnd Hfresh Hall;
    cbn [values map for_each snd fst].
  - now rewrite app_nil_r.
  - inversion Hnd as [|? ? Hk Hnd']; subst.
    inversion Hall as [|? ? Hhd Htl]; subst. cbn [fst snd] in Hhd.
    rewrite load_record_saved. cbn [bind].
    rewrite <- Hhd, dict_set_absent.
    + fold (values l). rewrite IH; [now rewrite <- app_assoc|exact Hnd'| |exact Htl].
      intros k' Hk' Hin. unfold keys in Hin. rewrite map_app in Hin.
      apply in_app_or in Hin. destruct Hin as [Hin | [<- | []]].
      * apply (Hfresh k'); [now right|exact Hin].
      * exact (Hk Hk').
    + destruct (has_key k acc) eqn:E; [|reflexivity].
      apply has_key_in_keys in E. exfalso. apply (Hfresh k); [now left|exact E].
Qed.

(** X21. Saving and loading is a round trip on what is saved: for a well
    keyed catalog, a fresh database built from the file written by
    [_save_songs] holds the same keys in the same order with the same
    title, artist, progression and source, [all_chords] and [sections]
    being reset to empty; the file is left as it is, and saving the
    reloaded catalog writes the same file again. *)
Theorem saved_catalog_loads_back (songs : dict Song) :
  well_keyed lower songs ->
  SongDatabase_init lower (_save_songs songs)
  = Return (map (fun kv => (fst kv, reloaded (snd kv))) songs, _save_songs songs)
  /\ _save_songs (map (fun kv => (fst kv, reloaded (snd kv))) songs)
     = _save_songs songs.
Proof.
  intros [Hnd Hall]. split.
  - unfold SongDatabase_init, _load_songs, _save_songs, load_body, iterate.
    cbn [bind]. rewrite for_each_saved; [reflexivity|exact Hnd| |exact Hall].
    intros k _ [].
  - unfold _save_songs, values. rewrite !map_map. reflexivity.
Qed.

Lemma load_record_raises (songs : dict Song) (song_data : value) (e : exn) :
  load_record lower songs song_data = Raise e ->
  e = TypeError \/ e = AttributeError.
Proof.
  unfold load_record.
  destruct (accepts_kwargs song_data) as [d|];
    [|intros H; injection H as <-; now left].
  destruct (get_default "title" d VNone) as [| | |t| |];
    try (intros H; injection H as <-; now right).
  destruct (get_default "artist" d VNone); cbn [as_str bind]; try discriminate.
  destruct (as_str_list (get_default "progression" d VNone)) as [p|e'|] eqn:Ep;
    cbn [bind]; try discriminate.
  - destruct (get_default "source" d (VStr default_source)); cbn [as_str bind];
      discriminate.
  - exfalso. clear -Ep. unfold as_str_list in Ep.
    destruct (get_default "progression" d VNone) as [| | | |l|]; try discriminate.
    induction l as [|x l IH]; cbn [as_str_list_items] in Ep; [discriminate|].
    destruct x; try discriminate.
    destruct (as_str_list_items l) as [r|e''|]; cbn [bind] in Ep;
      [discriminate|now apply IH|discriminate].
Qed.

Lemma for_each_raises (items : list value) :
  forall songs e,
    for_each (load_record lower) items songs = Raise e ->
    e = TypeError \/ e = AttributeError.
Proof.
  induction items as [|x items IH]; intros songs e; cbn [for_each]; [discriminate|].
  destruct (load_record lower songs x) as [s1|e1|] eqn:E; cbn [bind].
  - apply IH.
  - intros H. injection H as <-. now apply (load_record_raises songs x).
  - discriminate.
Qed.

(** X22. Loading never writes to a file that exists and never puts the
    sample songs in its place: when [_load_songs] returns on a file that is
    present, the storage is unchanged and the catalog is what the records of
    the file gave. *)
Theorem existing_file_is_never_rewritten
    (songs : dict Song) (file : storage) (songs' : dict Song) (file' : storage) :
  file <> NoFile ->
  _load_songs lower songs file = Return (songs', file') ->
  file' = file /\ load_body lower songs file = Return songs'.
Proof.
  intros Hfile. unfold _load_songs.
  destruct (load_body lower songs file) as [s1|e|] eqn:E.
  - intros H. injection H as <- <-. now split.
  - destruct e; try discriminate. exfalso.
    destruct file as [| |v]; [congruence|discriminate|].
    cbn [load_body] in E.
    destruct (iterate v) as [items|e|] eqn:Ei; cbn [bind] in E.
    + apply for_each_raises in E. destruct E; discriminate.
    + destruct v; cbn [iterate] in Ei; try discriminate; congruence.
    + discriminate.
  - discriminate.
Qed.

End CatalogMore.

Lemma search_songs_empty_query_witness :
  search_songs lower_ascii seed_catalog EmptyString = values seed_catalog.
Proof.
  apply (search_songs_empty_query lower_ascii seed_catalog EmptyString). reflexivity.
Defined.

Lemma added_song_is_found_by_title_witness :
  In (mkSong "Bertha" "Grateful Dead" ["G"; "C"] (VStr "Live") default_source (VDict []))
     (search_songs lower_ascii
        (fst (add_song lower_ascii seed_catalog "Bertha" "Grateful Dead" ["G"; "C"] "Live"))
        "BERTHA").
Proof.
  apply (added_song_is_found_by_title lower_ascii seed_catalog
           "Bertha" "Grateful Dead" ["G"; "C"] "Live" "BERTHA").
  reflexivity.
Defined.

Lemma add_song_keeps_other_keys_witness :
  dict_get "ripple"
    (fst (add_song lower_ascii seed_catalog "Bertha" "Grateful Dead" ["G"; "C"] "Live"))
  = dict_get "ripple" seed_catalog.
Proof.
  apply (add_song_keeps_other_keys lower_ascii seed_catalog
           "Bertha" "Grateful Dead" ["G"; "C"] "Live" "ripple").
  vm_compute. discriminate.
Defined.

Lemma add_song_new_key_comes_last_witness :
  fst (add_song lower_ascii seed_catalog "Bertha" "Grateful Dead" ["G"; "C"] "Live")
  = seed_catalog
    ++ [(lower_ascii "Bertha",
         mkSong "Bertha" "Grateful Dead" ["G"; "C"] (VStr "Live") default_source (VDict []))].
Proof.
  apply (add_song_new_key_comes_last lower_ascii seed_catalog
           "Bertha" "Grateful Dead" ["G"; "C"] "Live").
  reflexivity.
Defined.

Lemma add_song_keeps_well_keyed_witness :
  well_keyed lower_ascii
    (fst (add_song lower_ascii seed_catalog "RIPPLE" "Grateful Dead" ["G"; "C"] "Live")).
Proof.
  apply (add_song_keeps_well_keyed lower_ascii seed_catalog
           "RIPPLE" "Grateful Dead" ["G"; "C"] "Live").
  split; [repeat constructor; cbn; intuition discriminate | repeat constructor].
Defined.

Lemma constructed_catalog_is_well_keyed_witness :
  well_keyed lower_ascii seed_catalog.
Proof.
  apply (constructed_catalog_is_well_keyed lower_ascii NoFile seed_catalog
           (_save_songs seed_catalog)).
  reflexivity.
Defined.

Lemma saved_catalog_loads_back_witness :
  SongDatabase_init lower_ascii (_save_songs seed_catalog)
  = Return (map (fun kv => (fst kv, reloaded (snd kv))) seed_catalog,
            _save_songs seed_catalog)
  /\ _save_songs (map (fun kv => (fst kv, reloaded (snd kv))) seed_catalog)
     = _save_songs seed_catalog.
Proof.
  apply (saved_catalog_loads_back lower_ascii seed_catalog).
  split; [repeat constructor; cbn; intuition discriminate | repeat constructor].
Defined.

Lemma existing_file_is_never_rewritten_witness :
  _save_songs seed_catalog = _save_songs seed_catalog
  /\ load_body lower_ascii [] (_save_songs seed_catalog)
     = Return (map (fun kv => (fst kv, reloaded (snd kv))) seed_catalog).
Proof.
  apply (existing_file_is_never_rewritten lower_ascii [] (_save_songs seed_catalog)
           (map (fun kv => (fst kv, reloaded (snd kv))) seed_catalog)
           (_save_songs seed_catalog)).
  - discriminate.
  - reflexivity.
Defined.

Lemma search_songs_finds_substrings_witness :
  In (song_of "SongA" ["G"; "C"; "D"]) (search_songs lower_ascii ranking_catalog "ONG").
Proof.
  apply (search_songs_finds_substrings lower_ascii ranking_catalog "ONG"
           (song_of "SongA" ["G"; "C"; "D"])).
  split.
  - cbn. right. left. reflexivity.
  - left. exists "s"%string, "a"%string. reflexivity.
Defined.

Lemma match_run_is_longest_matching_prefix_witness :
  3 + 1 < 2 * length ["G"; "C"; "G"; "D"]
  /\ chord_eq lower_ascii
       (nth (3 + 1) (["G"; "C"; "G"; "D"] ++ ["G"; "C"; "G"; "D"]) EmptyString)
       (nth 1 ["D"; "G"] EmptyString) = true.
Proof.
  apply (proj1 (proj2 (proj2
           (match_run_is_longest_matching_prefix lower_ascii
              ["D"; "G"] ["G"; "C"; "G"; "D"] 3))) 1).
  cbn. lia.
Defined.
